(** * LinnFS: block address translation, inode cache and path lookup

    A shallow embedding of [srv/filesystem/linn/LinnFileSystem.cpp]:
    [getInode], [getGroup], [getGroupByInode], [getOffset] and
    [lookupFile], as functions over an explicit file-system state.

    The headers the file includes are not part of the sources at hand.
    What they declare is collected in the class [Env] below; every
    theorem holds for all its instances. *)

From Stdlib Require Import ZArith Lia List.
From stdpp Require Import gmap strings list fin_maps.

Local Open Scope Z_scope.

(** ** Machine integers *)

(** A [w]-bit unsigned value: arithmetic results are reduced modulo
    [2^w]. *)
Definition wrap (w x : Z) : Z := x mod 2 ^ w.

(** [u64], as in [Types.h]. *)
Definition u64 (x : Z) : Z := wrap 64 x.

(** ** On-disk records *)

(** [enum FileType], as far as [lookupFile] tells its values apart. *)
Inductive FileType : Type :=
  | DirectoryFile
  | RegularFile
  | OtherFile.

(** The fields of [LinnSuperBlock] the file reads. *)
Record LinnSuperBlock : Type := {
  magic0 : Z;
  magic1 : Z;
  blockSize : Z;
  inodesPerGroup : Z;
  inodesCount : Z;
  freeInodesCount : Z;
  blocksCount : Z;
  freeBlocksCount : Z;
  groupsTable : Z
}.

Record LinnGroup : Type := {
  inodeTable : Z
}.

(** [type] is the inode's type tag already cast to [FileType];
    [block] is the array of block pointers: direct ones first, then the
    single, double and triple indirect pointer. *)
Record LinnInode : Type := {
  type : FileType;
  block : list Z
}.

(** A [LinnInode *]: the address [new LinnInode] returned together with
    the record stored there.  An inode is written once, by the storage
    read that follows its allocation, and never again. *)
Record LinnInodePtr : Type := {
  addr : nat;
  obj : LinnInode
}.

(** [inode->block[i]].  An index past the array reads as [0]. *)
Definition inode_block (inode : LinnInode) (i : Z) : Z :=
  if i <? Z.of_nat (length (block inode))
  then nth (Z.to_nat i) (block inode) 0
  else 0.

(** ** In-memory objects *)

(** [LinnDirectory] and [LinnFile], the two [File] classes that
    [lookupFile] creates; each keeps the inode pointer it was built
    with. *)
Inductive File : Type :=
  | LinnDirectory (inode : LinnInodePtr)
  | LinnFile (inode : LinnInodePtr).

(** [File::getType]. *)
Definition getType (f : File) : FileType :=
  match f with
  | LinnDirectory _ => DirectoryFile
  | LinnFile _ => RegularFile
  end.

(** A [FileCache] object; [entries] maps a name to the address of the
    child's [FileCache]. *)
Record FileCache : Type := {
  file : File;
  entries : gmap string nat
}.

(** ** What the code does, as a trace *)

Inductive ObjKind : Type :=
  | KInode
  | KInteger
  | KBlock
  | KFile
  | KFileCache.

Inductive event : Type :=
  | EvRead (offset len res : Z)
      (* [storage->read(offset, buf, len)] returned [res] *)
  | EvIndex (slot : Z)
      (* [block[slot]] was read from the pointer block *)
  | EvGetEntry (dir : nat) (name : string)
      (* [dir->getEntry(&entry, name)] on the directory whose inode is
         at address [dir] *)
  | EvNew (k : ObjKind)
  | EvDelete (k : ObjKind).

Definition is_read (e : event) : bool :=
  match e with EvRead _ _ _ => true | _ => false end.

Definition is_failed_read (e : event) : bool :=
  match e with EvRead _ _ res => res <? 0 | _ => false end.

Definition is_new (e : event) : bool :=
  match e with EvNew _ => true | _ => false end.

Definition is_getEntry (e : event) : bool :=
  match e with EvGetEntry _ _ => true | _ => false end.

(** The storage reads in a trace, and the pointer slots read. *)
Fixpoint reads (t : list event) : list event :=
  match t with
  | [] => []
  | EvRead offset len res :: t' => EvRead offset len res :: reads t'
  | _ :: t' => reads t'
  end.

Fixpoint slots (t : list event) : list Z :=
  match t with
  | [] => []
  | EvIndex i :: t' => i :: slots t'
  | _ :: t' => slots t'
  end.

(** ** The environment of the translation unit *)

(** Constants and collaborators that [LinnFileSystem.cpp] takes from
    headers and classes outside it. *)
Class Env : Type := {
  (** [Types.h]: the width of [Size]. *)
  size_bits : Z;
  (** [LinnInode.h]. *)
  LINN_INODE_DIR_BLOCKS : Z;
  sizeof_LinnInode : Z;
  (** [LinnSuperBlock.h]: the size of one block pointer, the divisor in
      [LINN_SUPER_NUM_PTRS]. *)
  sizeof_ptr : Z;
  (** The width of the type in which [group->inodeTable *
      super.blockSize] is evaluated, and of the one in which
      [inode->block[blk] * super.blockSize] is. *)
  table_bits : Z;
  pointer_bits : Z;
  (** [Storage]: the device, with whatever state it has.  A read
      reports its result code and the bytes the buffer holds when it
      returns. *)
  Storage : Type;
  storage_read : Storage -> Z -> Z -> Storage * (Z * list Byte.byte);
  (** The buffer seen through [(u8 * ) inode] and [(u8 * ) block]. *)
  as_LinnInode : list Byte.byte -> LinnInode;
  as_u64s : list Byte.byte -> list Z;
  (** What lies in memory behind the pointer block: the value read by
      [block[i]] when [i] is not below the array's length. *)
  beyond : Z -> Z;
  (** [LinnDirectory::getEntry]: [Some n] when it returned [ESUCCESS]
      and left [n] in [entry.inode]. *)
  dir_getEntry : Storage -> LinnInodePtr -> string -> Storage * option Z
}.

(** [Size]. *)
Definition Size `{Env} (x : Z) : Z := wrap size_bits x.

(** Modelled from the spec: [LINN_SUPER_NUM_PTRS] ([LinnSuperBlock.h] is
    not among the sources) is the number of pointers that fit in one
    block, [blockSize / pointerSize]. *)
Definition LINN_SUPER_NUM_PTRS `{Env} (sb : LinnSuperBlock) : Z :=
  blockSize sb / sizeof_ptr.

(** ** The file system object *)

Record LinnFileSystem `{Env} : Type := {
  super : LinnSuperBlock;
  groups : list LinnGroup;            (* [Array<LinnGroup> *groups] *)
  storage : Storage;
  inodes : gmap Z LinnInodePtr;       (* [HashTable<Integer<u64>, LinnInode>] *)
  root : nat;                         (* [FileCache *root] *)
  fcache : list FileCache;            (* the [FileCache] objects, by address *)
  nobj : nat;                         (* addresses given out for inodes *)
  trace : list event
}.

Section Model.
Context `{Env}.

Definition with_storage (d : Storage) (s : LinnFileSystem) : LinnFileSystem :=
  {| super := super s; groups := groups s; storage := d; inodes := inodes s;
     root := root s; fcache := fcache s; nobj := nobj s; trace := trace s |}.

Definition with_inodes (m : gmap Z LinnInodePtr) (s : LinnFileSystem) : LinnFileSystem :=
  {| super := super s; groups := groups s; storage := storage s; inodes := m;
     root := root s; fcache := fcache s; nobj := nobj s; trace := trace s |}.

Definition with_fcache (h : list FileCache) (s : LinnFileSystem) : LinnFileSystem :=
  {| super := super s; groups := groups s; storage := storage s; inodes := inodes s;
     root := root s; fcache := h; nobj := nobj s; trace := trace s |}.

Definition with_nobj (n : nat) (s : LinnFileSystem) : LinnFileSystem :=
  {| super := super s; groups := groups s; storage := storage s; inodes := inodes s;
     root := root s; fcache := fcache s; nobj := n; trace := trace s |}.

Definition with_trace (t : list event) (s : LinnFileSystem) : LinnFileSystem :=
  {| super := super s; groups := groups s; storage := storage s; inodes := inodes s;
     root := root s; fcache := fcache s; nobj := nobj s; trace := t |}.

(** ** Member functions as state transformers

    A member function is a function from the object's state to a result
    and the next state, or to [None] where C++ leaves the behaviour
    undefined (division by zero, a dangling [FileCache] pointer). *)
Definition M (A : Type) : Type := LinnFileSystem -> option (A * LinnFileSystem).

Definition ret {A} (a : A) : M A := fun s => Some (a, s).

Definition bind {A B} (m : M A) (k : A -> M B) : M B :=
  fun s => match m s with
           | Some (a, s') => k a s'
           | None => None
           end.

Definition undefined {A} : M A := fun _ => None.

Definition get : M LinnFileSystem := fun s => Some (s, s).

Definition emit (e : event) : M unit :=
  fun s => Some (tt, with_trace (trace s ++ [e]) s).

End Model.

Notation "'let*' x ':=' m 'in' k" := (bind m (fun x => k))
  (at level 10, x pattern, m at level 100, k at level 200).
Notation "m ';;' k" := (bind m (fun _ => k))
  (at level 100, k at level 200, right associativity).

Section Operations.
Context `{Env}.

(** [storage->read(offset, buffer, len)]. *)
Definition read (offset len : Z) : M (Z * list Byte.byte) :=
  fun s =>
    let '(d, (res, buf)) := storage_read (storage s) offset len in
    Some ((res, buf), with_trace (trace s ++ [EvRead offset len res]) (with_storage d s)).

(** *** getGroup, getGroupByInode *)

(** Modelled from the spec: [Array<T>::operator[]] ([Array.h] is not
    among the sources) yields the element stored at the index, [ZERO]
    when the index is outside the array. *)
Definition Array_at {A} (a : list A) (i : Z) : option A :=
  if i <? Z.of_nat (length a) then a !! Z.to_nat i else None.

Definition getGroup (groupNum : Z) : M (option LinnGroup) :=
  let* s := get in
  ret (Array_at (groups s) groupNum).

(** The group number [getGroupByInode] passes on:
    [(inodeNum - 1) / super.inodesPerGroup], in [u64]. *)
Definition group_of_inode (sb : LinnSuperBlock) (inodeNum : Z) : Z :=
  u64 (inodeNum - 1) / inodesPerGroup sb.

Definition getGroupByInode (inodeNum : Z) : M (option LinnGroup) :=
  let* s := get in
  if inodesPerGroup (super s) =? 0 then undefined
  else getGroup (group_of_inode (super s) inodeNum).

(** *** getInode *)

(** [new LinnInode]: the next free address. *)
Definition new_inode : M nat :=
  fun s => Some (nobj s, with_trace (trace s ++ [EvNew KInode]) (with_nobj (S (nobj s)) s)).

(** The byte offset [getInode] reads from:
    [(group->inodeTable * super.blockSize) + (inodeNum % super.inodesPerGroup)],
    stored in a [Size]. *)
Definition inode_offset (sb : LinnSuperBlock) (group : LinnGroup) (inodeNum : Z) : Z :=
  Size (u64 (wrap table_bits (inodeTable group * blockSize sb)
             + inodeNum mod inodesPerGroup sb)).

Definition getInode (inodeNum : Z) : M (option LinnInodePtr) :=
  let* s := get in
  (* Validate the inode number. *)
  if inodesCount (super s) <=? inodeNum then ret None
  else
    (* Do we have this Inode cached already? *)
    match inodes s !! inodeNum with
    | Some inode => ret (Some inode)
    | None =>
      (* Get the group descriptor. *)
      let* g := getGroupByInode inodeNum in
      match g with
      | None => ret None
      | Some group =>
        (* Allocate inode buffer. *)
        let* a := new_inode in
        let offset := inode_offset (super s) group inodeNum in
        (* Read inode from storage. *)
        let* r := read offset sizeof_LinnInode in
        if fst r <=? 0 then ret None
        else
          let inode := {| addr := a; obj := as_LinnInode (snd r) |} in
          (* Insert into the cache. *)
          emit (EvNew KInteger) ;;
          (fun s' => Some (tt, with_inodes (<[inodeNum := inode]> (inodes s')) s')) ;;
          ret (Some inode)
      end
    end.

(** *** getOffset *)

(** [block[i]] on the temporary pointer block. *)
Definition block_at (buf : list Z) (i : Z) : Z :=
  if i <? Z.of_nat (length buf) then nth (Z.to_nat i) buf 0 else beyond i.

(** The indirection depth [getOffset] chooses for [blk], for a [blk]
    that is not below [LINN_INODE_DIR_BLOCKS]. *)
Definition getOffset_depth (sb : LinnSuperBlock) (blk : Z) : nat :=
  let numPerBlock := u64 (LINN_SUPER_NUM_PTRS sb) in
  if u64 (blk - LINN_INODE_DIR_BLOCKS) <? numPerBlock then 1%nat
  else if u64 (blk - LINN_INODE_DIR_BLOCKS) <? u64 (numPerBlock * numPerBlock) then 2%nat
  else 3%nat.

(** [Size remain = LINN_SUPER_NUM_PTRS(&super);
     for (Size i = 0; i < depth - 1; i++) remain *= remain;] *)
Definition getOffset_remain (sb : LinnSuperBlock) (depth : nat) : Z :=
  Nat.iter (depth - 1) (fun remain => Size (remain * remain))
           (Size (LINN_SUPER_NUM_PTRS sb)).

(** The statements after the [while] loop. *)
Definition getOffset_final (sb : LinnSuperBlock) (blk : Z) (buf : list Z) : M Z :=
  if u64 (LINN_SUPER_NUM_PTRS sb) =? 0 then undefined
  else
    let slot := u64 (blk - LINN_INODE_DIR_BLOCKS) mod u64 (LINN_SUPER_NUM_PTRS sb) in
    emit (EvIndex slot) ;;
    let offset := u64 (block_at buf slot * blockSize sb) in
    emit (EvDelete KBlock) ;;
    ret offset.

(** The [while (depth > 0)] loop, by recursion on [depth]; [buf] is the
    pointer block as the last read left it.  The block [new u64[...]]
    returns is passed as [[]]: [depth] is at least one on entry, so a read
    has filled the block before its first use. *)
Fixpoint getOffset_walk (sb : LinnSuperBlock) (blk : Z) (depth : nat)
    (offset : Z) (buf : list Z) : M Z :=
  match depth with
  | O => getOffset_final sb blk buf
  | S depth' =>
    (* Fetch block. *)
    let* r := read offset (blockSize sb) in
    if fst r <? 0 then
      emit (EvDelete KBlock) ;;
      ret 0
    else
      let buf' := as_u64s (snd r) in
      (* Calculate the number of blocks remaining per entry. *)
      let remain := getOffset_remain sb depth in
      (* Calculate the next offset. *)
      let divisor := u64 (u64 (blk - LINN_INODE_DIR_BLOCKS) + 1) in
      if divisor =? 0 then undefined
      else
        let slot := u64 remain / divisor in
        emit (EvIndex slot) ;;
        let offset' := u64 (block_at buf' slot * blockSize sb) in
        getOffset_walk sb blk depth' offset' buf'
  end.

Definition getOffset (inode : LinnInode) (blk : Z) : M Z :=
  let* s := get in
  let sb := super s in
  (* Direct blocks. *)
  if blk <? LINN_INODE_DIR_BLOCKS then
    ret (u64 (wrap pointer_bits (inode_block inode blk * blockSize sb)))
  else
    let depth := getOffset_depth sb blk in
    (* Allocate temporary block. *)
    emit (EvNew KBlock) ;;
    let offset :=
      u64 (inode_block inode (LINN_INODE_DIR_BLOCKS + Z.of_nat depth - 1) * blockSize sb) in
    (* Lookup the block number. *)
    getOffset_walk sb blk depth offset [].

(** *** lookupFile *)

(** The heap after a [FileCache] around [f] was made, at the next free
    address, and entered under [name] in the table of the node at
    [parent]. *)
Definition link_child (h : list FileCache) (f : File) (parent : nat) (name : string)
    : list FileCache :=
  alter (fun p => {| file := file p; entries := <[name := length h]> (entries p) |})
        parent (h ++ [ {| file := f; entries := ∅ |} ]).

(** Modelled from the spec: [insertFileCache] ([FileSystem.h] is not
    among the sources) builds a [FileCache] around [f] and inserts it in
    the tree under [name].  The specification has the node become a
    child of the current node of [lookupFile]; the call hands over the
    file and the name of one component, and no node.  The name is to
    the callee a path from the root, of one component: the new node
    becomes the child the root has under it. *)
Definition insertFileCache (f : File) (name : string) : M nat :=
  fun s =>
    Some (length (fcache s),
          with_trace (trace s ++ [EvNew KFileCache])
            (with_fcache (link_child (fcache s) f (root s) name) s)).

(** [dir->getEntry(&entry, name)]. *)
Definition getEntry (dir : LinnInodePtr) (name : string) : M (option Z) :=
  fun s =>
    let '(d, r) := dir_getEntry (storage s) dir name in
    Some (r, with_trace (trace s ++ [EvGetEntry (addr dir) name]) (with_storage d s)).

(** [*c]: the object a [FileCache *] points to. *)
Definition deref (c : nat) : M FileCache :=
  fun s => match fcache s !! c with
           | Some node => Some (node, s)
           | None => None
           end.

(** The body of the loop, for the component [name] and the current node
    [c]: the node to move to, [None] where the body returns [ZERO]. *)
Definition lookupFile_entry (name : string) (c : nat) : M (option nat) :=
  let* node := deref c in
  (* Do we have this entry? *)
  match entries node !! name with
  | None =>
    (* If this isn't a directory, we cannot perform a lookup. *)
    match file node with
    | LinnFile _ => ret None
    | LinnDirectory dir =>
      (* Then retrieve it, if possible. *)
      let* e := getEntry dir name in
      match e with
      | None => ret None
      | Some entry_inode =>
        (* Lookup corresponding inode. *)
        let* i := getInode entry_inode in
        match i with
        | None => ret None
        | Some inode =>
          (* Create the appropriate in-memory file. *)
          match type (obj inode) with
          | DirectoryFile =>
            emit (EvNew KFile) ;;
            let* c' := insertFileCache (LinnDirectory inode) name in
            ret (Some c')
          | RegularFile =>
            emit (EvNew KFile) ;;
            let* c' := insertFileCache (LinnFile inode) name in
            ret (Some c')
          | OtherFile => ret None
          end
        end
      end
    end
  (* Move to the next entry. *)
  | Some child => ret (Some child)
  end.

(** The loop over the path's components, from the current node [c]. *)
Fixpoint lookupFile_from (names : list string) (c : nat) : M (option nat) :=
  match names with
  | [] => ret (Some c)
  | name :: rest =>
    let* next := lookupFile_entry name c in
    match next with
    | None => ret None
    | Some c' => lookupFile_from rest c'
    end
  end.

(** [lookupFile(path)], on the components [path->split()] yields. *)
Definition lookupFile (path : list string) : M (option nat) :=
  let* s := get in
  lookupFile_from path (root s).

(** *** Requests *)

(** The calls a mounted file system receives. *)
Inductive request : Type :=
  | ReqInode (inodeNum : Z)
  | ReqOffset (inode : LinnInode) (blk : Z)
  | ReqLookup (path : list string).

Definition serve (q : request) : M unit :=
  match q with
  | ReqInode n => getInode n ;; ret tt
  | ReqOffset inode blk => getOffset inode blk ;; ret tt
  | ReqLookup path => lookupFile path ;; ret tt
  end.

Fixpoint serve_all (qs : list request) : M unit :=
  match qs with
  | [] => ret tt
  | q :: qs' => serve q ;; serve_all qs'
  end.

End Operations.

(** ** The file cache tree *)

(** The child the node at [c] has under [name]. *)
Definition child_of (h : list FileCache) (c : nat) (name : string) : option nat :=
  match h !! c with
  | Some node => entries node !! name
  | None => None
  end.

(** The node the tree alone leads to, from [c] along [names]. *)
Fixpoint cached (h : list FileCache) (c : nat) (names : list string) : option nat :=
  match names with
  | [] => Some c
  | name :: rest =>
    match child_of h c name with
    | Some child => cached h child rest
    | None => None
    end
  end.

(** [h'] has every node [h] has, at its address and around the same
    [File]. *)
Definition keeps_nodes (h h' : list FileCache) : Prop :=
  forall c node, h !! c = Some node ->
    exists node', h' !! c = Some node' /\ file node' = file node.

(** No node that wraps a regular file has children. *)
Definition files_are_leaves (h : list FileCache) : Prop :=
  forall c node, h !! c = Some node -> getType (file node) <> DirectoryFile ->
    entries node = ∅.

(** The root is a node, and wraps a directory. *)
Definition root_is_directory `{Env} (s : LinnFileSystem) : Prop :=
  exists node, fcache s !! root s = Some node /\ getType (file node) = DirectoryFile.

(** ** How a translation ends

    The events of one [getOffset] call that needs [d] levels either
    hold [d] storage reads, none of them failed, or end with a failed
    read followed by the release of the pointer block, with [0]
    returned. *)
Definition completes (d : nat) (evs : list event) : Prop :=
  existsb is_failed_read evs = false /\ length (reads evs) = d.

Definition aborts (d : nat) (r : Z) (evs : list event) : Prop :=
  r = 0 /\ (length (reads evs) <= d)%nat /\
  exists pre offset len res,
    evs = pre ++ [EvRead offset len res; EvDelete KBlock] /\
    res < 0 /\ existsb is_failed_read pre = false.

(** ** The addressing the specification describes

    Section 4.1 of the specification: the indices past the direct
    pointers fall into three contiguous ranges of [n], [n^2] and the
    remaining indices, for fan-out [n]; within the range of depth [d], the
    slot taken at each level is a digit of the index, counted from the
    start of the range, written in base [n]. *)
Module Spec.

(** First index of the range of depth [d], counted from the end of the
    direct pointers. *)
Definition range_base (n : Z) (d : nat) : Z :=
  match d with
  | 1%nat => 0
  | 2%nat => n
  | _ => n + n * n
  end.

(** Depth of the index [k] past the direct pointers. *)
Definition depth (n k : Z) : nat :=
  if k <? n then 1%nat
  else if k <? n + n * n then 2%nat
  else 3%nat.

(** Digit [level] of [k] in base [n]; level [0] is the last one. *)
Definition digit (n k : Z) (level : nat) : Z := (k / n ^ Z.of_nat level) mod n.

(** The slots followed, from the inode's pointer down to the data
    block. *)
Definition slots_followed (n : Z) (d : nat) (k : Z) : list Z :=
  map (digit n (k - range_base n d)) (rev (seq 0 d)).

End Spec.

(** ** A small volume

    Blocks of 32 bytes holding four 64-bit little-endian pointers, four
    direct pointers per inode, and a device that serves reads from an
    image and refuses those that leave it. *)
Module Demo.

Definition byte_of (z : Z) : Byte.byte :=
  match Byte.of_N (Z.to_N (z mod 256)) with
  | Some b => b
  | None => Byte.x00
  end.

Definition byte_val (b : Byte.byte) : Z := Z.of_N (Byte.to_N b).

(** Eight bytes, least significant first. *)
Definition le64 (z : Z) : list Byte.byte :=
  map (fun i => byte_of (z / 256 ^ Z.of_nat i)) (seq 0 8).

Definition le_value (bs : list Byte.byte) : Z :=
  fold_right (fun b acc => byte_val b + 256 * acc) 0 bs.

Fixpoint le64_words (count : nat) (bs : list Byte.byte) : list Z :=
  match count with
  | O => []
  | S count' => le_value (firstn 8 bs) :: le64_words count' (skipn 8 bs)
  end.

Definition words_of (bs : list Byte.byte) : list Z :=
  le64_words (length bs / 8) bs.

Definition type_of_tag (b : Z) : FileType :=
  if b =? 1 then DirectoryFile
  else if b =? 0 then RegularFile
  else OtherFile.

(** An inode record: one tag byte, seven bytes of padding, seven
    pointers. *)
Definition inode_of (bs : list Byte.byte) : LinnInode :=
  {| type := type_of_tag (byte_val (nth 0 bs Byte.x00));
     block := le64_words 7 (skipn 8 bs) |}.

(** The image, block by block.  Block 1 is the inode table; its bytes
    1 and 2 tag inodes 1 and 2 as directories, byte 3 tags inode 3 as a
    regular file, byte 4 tags inode 4 as something else.  Block 2 is a
    single indirect block, block 3 a double indirect block over blocks
    4 to 7, block 8 a triple indirect block. *)
Definition image : list Byte.byte :=
  concat (map le64
    [ 0; 0; 0; 0;
      1 * 256 + 1 * 256 ^ 2 + 7 * 256 ^ 4; 0; 0; 0;
      20; 21; 22; 23;
      4; 5; 6; 7;
      40; 41; 42; 43;
      50; 51; 52; 53;
      60; 61; 62; 63;
      70; 71; 72; 73;
      3; 3; 3; 3;
      0; 0; 0; 0 ]).

Definition image_read (_ : unit) (offset len : Z) : unit * (Z * list Byte.byte) :=
  if (0 <=? offset) && (0 <=? len) && (offset + len <=? Z.of_nat (length image))
  then (tt, (len, firstn (Z.to_nat len) (skipn (Z.to_nat offset) image)))
  else (tt, (-1, [])).

(** Every directory lists the same four names. *)
Definition dirents (_ : unit) (_ : LinnInodePtr) (name : string) : unit * option Z :=
  (tt,
   if String.eqb name "bin" then Some 2
   else if String.eqb name "init" then Some 3
   else if String.eqb name "dev" then Some 4
   else if String.eqb name "lost" then Some 100
   else None).

#[export] Instance env : Env := {|
  size_bits := 32;
  LINN_INODE_DIR_BLOCKS := 4;
  sizeof_LinnInode := 64;
  sizeof_ptr := 8;
  table_bits := 64;
  pointer_bits := 64;
  Storage := unit;
  storage_read := image_read;
  as_LinnInode := inode_of;
  as_u64s := words_of;
  beyond := fun _ => 0;
  dir_getEntry := dirents
|}.

Definition sb : LinnSuperBlock :=
  {| magic0 := 0; magic1 := 0; blockSize := 32; inodesPerGroup := 8;
     inodesCount := 8; freeInodesCount := 0; blocksCount := 10;
     freeBlocksCount := 0; groupsTable := 0 |}.

Definition root_inode : LinnInodePtr :=
  {| addr := 0%nat; obj := {| type := DirectoryFile; block := [0; 0; 0; 0; 0; 0; 0] |} |}.

(** The state a mount leaves: the root inode cached, the root
    [FileCache] at address 0. *)
Definition fs : LinnFileSystem :=
  {| super := sb;
     groups := [ {| inodeTable := 1 |} ];
     storage := tt;
     inodes := {[ 1 := root_inode ]};
     root := 0%nat;
     fcache := [ {| file := LinnDirectory root_inode; entries := ∅ |} ];
     nobj := 1%nat;
     trace := [] |}.

(** A file with four direct blocks and the three indirect pointers at
    blocks 2, 3 and 8; and one whose single indirect pointer leaves the
    image. *)
Definition inode : LinnInode :=
  {| type := RegularFile; block := [10; 11; 12; 13; 2; 3; 8] |}.

Definition torn_inode : LinnInode :=
  {| type := RegularFile; block := [10; 11; 12; 13; 99; 3; 8] |}.

(** The same mount over a group whose inode table leaves the image. *)
Definition torn_fs : LinnFileSystem :=
  {| super := sb;
     groups := [ {| inodeTable := 99 |} ];
     storage := tt;
     inodes := {[ 1 := root_inode ]};
     root := 0%nat;
     fcache := [ {| file := LinnDirectory root_inode; entries := ∅ |} ];
     nobj := 1%nat;
     trace := [] |}.

(** The state a call leaves when it returns, [s] itself when it does
    not. *)
Definition after {A} (m : M A) (s : LinnFileSystem) : LinnFileSystem :=
  match m s with
  | Some (_, s') => s'
  | None => s
  end.

End Demo.

(** ** What a mounted file system keeps *)

(** The number of events of a trace that [f] selects. *)
Fixpoint count_events (f : event -> bool) (t : list event) : nat :=
  match t with
  | [] => 0%nat
  | e :: t' => if f e then S (count_events f t') else count_events f t'
  end.

Definition is_new_FileCache (e : event) : bool :=
  match e with EvNew KFileCache => true | _ => false end.

Definition is_new_Block (e : event) : bool :=
  match e with EvNew KBlock => true | _ => false end.

Definition is_delete (e : event) : bool :=
  match e with EvDelete _ => true | _ => false end.

(** An event of the loop of [getOffset]: a read of one block of
    [len] bytes, or a slot of the pointer block. *)
Definition is_walk_event (len : Z) (e : event) : Prop :=
  match e with
  | EvRead _ l _ => l = len
  | EvIndex _ => True
  | _ => False
  end.

(** [s'] has all that [s] has: the same superblock, group table and
    root, every cached inode, every node of the tree, and a trace that
    continues the one of [s]. *)
Definition grows `{Env} (s s' : LinnFileSystem) : Prop :=
  super s' = super s /\ groups s' = groups s /\ root s' = root s /\
  inodes s ⊆ inodes s' /\ (nobj s <= nobj s')%nat /\
  keeps_nodes (fcache s) (fcache s') /\
  (length (fcache s) <= length (fcache s'))%nat /\
  exists evs, trace s' = trace s ++ evs.

(** The inode cache holds numbers that pass the validation, at
    addresses that were given out, no two numbers at one address. *)
Definition inodes_ok `{Env} (s : LinnFileSystem) : Prop :=
  (forall n p, inodes s !! n = Some p -> n < inodesCount (super s)) /\
  (forall n p, inodes s !! n = Some p -> (addr p < nobj s)%nat) /\
  (forall n1 n2 p1 p2, inodes s !! n1 = Some p1 -> inodes s !! n2 = Some p2 ->
     addr p1 = addr p2 -> n1 = n2).

(** Every pointer of the tree is the address of a node. *)
Definition tree_closed (root : nat) (h : list FileCache) : Prop :=
  (root < length h)%nat /\
  forall c name child, child_of h c name = Some child -> (child < length h)%nat.

(** No link leads to the root, and no two links lead to one node. *)
Definition tree_shaped (root : nat) (h : list FileCache) : Prop :=
  (forall c name, child_of h c name <> Some root) /\
  (forall c1 name1 c2 name2 child,
     child_of h c1 name1 = Some child -> child_of h c2 name2 = Some child ->
     c1 = c2 /\ name1 = name2).

(** The inode a [File] was built with. *)
Definition file_inode (f : File) : LinnInodePtr :=
  match f with
  | LinnDirectory inode => inode
  | LinnFile inode => inode
  end.

(** Every node but the root wraps an object of the class its inode's
    type asks for, around an inode that is in the inode cache. *)
Definition wrappers_match `{Env} (s : LinnFileSystem) : Prop :=
  forall c node, fcache s !! c = Some node -> c <> root s ->
    getType (file node) = type (obj (file_inode (file node))) /\
    exists n, inodes s !! n = Some (file_inode (file node)).

(** ** Mounting *)

(** What the constructor takes from headers and classes outside the
    file, beside [Env]. *)
Class MountEnv `{Env} : Type := {
  (** [LinnSuperBlock.h]. *)
  LINN_SUPER_OFFSET : Z;
  LINN_SUPER_MAGIC0 : Z;
  LINN_SUPER_MAGIC1 : Z;
  sizeof_LinnSuperBlock : Z;
  LINN_GROUP_COUNT : LinnSuperBlock -> Z;
  (** [LinnGroup.h], [LinnInode.h]. *)
  sizeof_LinnGroup : Z;
  LINN_INODE_ROOT : Z;
  (** The width of the type in which [super.groupsTable *
      super.blockSize] is evaluated. *)
  groups_bits : Z;
  (** The buffer seen through [(u8 * ) &super] and [(u8 * ) group]. *)
  as_LinnSuperBlock : list Byte.byte -> LinnSuperBlock;
  as_LinnGroup : list Byte.byte -> LinnGroup
}.

(** How the constructor ends: in [exit(EXIT_FAILURE)], with the events
    up to there; with the object built; with the object built around a
    root directory whose inode pointer is [ZERO], which [File] here does
    not represent, so that the state is the one before the root
    [FileCache] is made; or in a division by zero. *)
Inductive Mount `{Env} : Type :=
  | Exited (t : list event)
  | Mounted (fs : LinnFileSystem)
  | MountedNullRoot (fs : LinnFileSystem)
  | MountUndefined.

Section Mounting.
Context `{MountEnv}.

(** The offset the [i]-th group descriptor is read from:
    [(super.groupsTable * super.blockSize) + (sizeof(LinnGroup) * i)],
    stored in a [Size]. *)
Definition group_offset (sb : LinnSuperBlock) (i : Z) : Z :=
  Size (u64 (wrap groups_bits (groupsTable sb * blockSize sb)
             + u64 (sizeof_LinnGroup * i))).

(** The loop over the group descriptors, with [todo] turns left, [i]
    the loop counter and [acc] the descriptors inserted so far; [inl]
    where a read makes the constructor exit.  The descriptors are
    inserted at the indices [0], [1], ... in turn; the allocations of the
    array and of the descriptors are not traced. *)
Fixpoint read_groups (sb : LinnSuperBlock) (todo : nat) (i : Z) (d : Storage)
    (t : list event) (acc : list LinnGroup)
    : list event + (Storage * list event * list LinnGroup) :=
  match todo with
  | O => inr (d, t, acc)
  | S todo' =>
    let offset := group_offset sb i in
    (* Read from storage. *)
    let '(d', (e, bytes)) := storage_read d offset sizeof_LinnGroup in
    let t' := t ++ [EvRead offset sizeof_LinnGroup e] in
    if e <=? 0 then inl t'
    else
      (* Insert in the groups vector. *)
      read_groups sb todo' (i + 1) d' t' (acc ++ [as_LinnGroup bytes])
  end.

(** The reads of the group descriptors [i], [i + 1], ... that reported
    the counts [rs]. *)
Fixpoint group_reads (sb : LinnSuperBlock) (i : Z) (rs : list Z) : list event :=
  match rs with
  | [] => []
  | res :: rs' => EvRead (group_offset sb i) sizeof_LinnGroup res :: group_reads sb (i + 1) rs'
  end.

(** [LinnFileSystem::LinnFileSystem(p, s)], on the device [d]. *)
Definition LinnFileSystem_ctor (d : Storage) : Mount :=
  (* Read out the superblock. *)
  let '(d1, (e, bytes)) := storage_read d LINN_SUPER_OFFSET sizeof_LinnSuperBlock in
  let t1 := [EvRead LINN_SUPER_OFFSET sizeof_LinnSuperBlock e] in
  if e <=? 0 then Exited t1
  else
    let sb := as_LinnSuperBlock bytes in
    (* Verify magic. *)
    if negb (magic0 sb =? LINN_SUPER_MAGIC0) || negb (magic1 sb =? LINN_SUPER_MAGIC1)
    then Exited t1
    else
      (* Read out group descriptors. *)
      match read_groups sb (Z.to_nat (LINN_GROUP_COUNT sb)) 0 d1 t1 [] with
      | inl t => Exited t
      | inr (d2, t2, gs) =>
        let s0 :=
          {| super := sb; groups := gs; storage := d2; inodes := ∅;
             root := 0%nat; fcache := []; nobj := 0%nat; trace := t2 |} in
        (* Read out the root directory. *)
        match getInode LINN_INODE_ROOT s0 with
        | None => MountUndefined
        | Some (None, s1) => MountedNullRoot s1
        | Some (Some rootInode, s1) =>
          Mounted
            (with_trace (trace s1 ++ [EvNew KFile; EvNew KFileCache])
               (with_fcache [ {| file := LinnDirectory rootInode; entries := ∅ |} ] s1))
        end
      end.

End Mounting.

(** ** A volume with a superblock

    A device whose state is its image: a superblock of nine 64-bit
    fields at offset 0, group descriptors of one field, inode records as
    in [Demo], blocks of 64 bytes. *)
Module Disk.

Definition read_image (image : list Byte.byte) (offset len : Z)
    : list Byte.byte * (Z * list Byte.byte) :=
  if (0 <=? offset) && (0 <=? len) && (offset + len <=? Z.of_nat (length image))
  then (image, (len, firstn (Z.to_nat len) (skipn (Z.to_nat offset) image)))
  else (image, (-1, [])).

Definition dirents (image : list Byte.byte) (_ : LinnInodePtr) (name : string)
    : list Byte.byte * option Z :=
  (image,
   if String.eqb name "bin" then Some 2
   else if String.eqb name "init" then Some 3
   else None).

#[export] Instance env : Env := {|
  size_bits := 32;
  LINN_INODE_DIR_BLOCKS := 4;
  sizeof_LinnInode := 64;
  sizeof_ptr := 8;
  table_bits := 64;
  pointer_bits := 64;
  Storage := list Byte.byte;
  storage_read := read_image;
  as_LinnInode := Demo.inode_of;
  as_u64s := Demo.words_of;
  beyond := fun _ => 0;
  dir_getEntry := dirents
|}.

Definition superblock_of (bs : list Byte.byte) : LinnSuperBlock :=
  let w := Demo.le64_words 9 bs in
  {| magic0 := nth 0 w 0; magic1 := nth 1 w 0; blockSize := nth 2 w 0;
     inodesPerGroup := nth 3 w 0; inodesCount := nth 4 w 0;
     freeInodesCount := nth 5 w 0; blocksCount := nth 6 w 0;
     freeBlocksCount := nth 7 w 0; groupsTable := nth 8 w 0 |}.

Definition group_of (bs : list Byte.byte) : LinnGroup :=
  {| inodeTable := nth 0 (Demo.le64_words 1 bs) 0 |}.

#[export] Instance menv : MountEnv := {|
  LINN_SUPER_OFFSET := 0;
  LINN_SUPER_MAGIC0 := 19;
  LINN_SUPER_MAGIC1 := 86;
  sizeof_LinnSuperBlock := 72;
  LINN_GROUP_COUNT := fun sb => (inodesCount sb + inodesPerGroup sb - 1) / inodesPerGroup sb;
  sizeof_LinnGroup := 8;
  LINN_INODE_ROOT := 1;
  groups_bits := 64;
  as_LinnSuperBlock := superblock_of;
  as_LinnGroup := group_of
|}.

(** Block 0 and the start of block 1: the superblock, with 64-byte
    blocks, 8 inodes per group, 12 inodes and the group table in block
    2.  Block 2: two group descriptors, inode tables in blocks 3 and 4.
    Block 3: the tags of inodes 1 and 2, directories, and 3, a regular
    file.  Blocks 4 and 5: zeros. *)
Definition image : list Byte.byte :=
  concat (map Demo.le64
    [ 19; 86; 64; 8; 12; 0; 6; 0;
      2; 0; 0; 0; 0; 0; 0; 0;
      3; 4; 0; 0; 0; 0; 0; 0;
      1 * 256 + 1 * 256 ^ 2; 0; 0; 0; 0; 0; 0; 0;
      0; 0; 0; 0; 0; 0; 0; 0;
      0; 0; 0; 0; 0; 0; 0; 0 ]).

(** The same with a wrong second magic. *)
Definition foreign_image : list Byte.byte :=
  concat (map Demo.le64 [ 19; 0; 64; 8; 12; 0; 6; 0; 2 ]).

(** The superblock alone: the group table lies outside the image. *)
Definition torn_image : list Byte.byte :=
  concat (map Demo.le64 [ 19; 86; 64; 8; 12; 0; 6; 0; 2 ]).

(** The object the constructor builds on [image]. *)
Definition blank : LinnFileSystem :=
  {| super := superblock_of []; groups := []; storage := []; inodes := ∅;
     root := 0%nat; fcache := []; nobj := 0%nat; trace := [] |}.

Definition fs : LinnFileSystem :=
  match LinnFileSystem_ctor image with
  | Mounted fs => fs
  | _ => blank
  end.

(** The state a call leaves when it returns, [s] itself when it does
    not. *)
Definition after {A} (m : M A) (s : LinnFileSystem) : LinnFileSystem :=
  match m s with
  | Some (_, s') => s'
  | None => s
  end.

End Disk.

(** * Properties *)

(** ** Machine integers *)

Lemma wrap_small (w x : Z) : 0 <= x < 2 ^ w -> wrap w x = x.
Proof. intros Hx. unfold wrap. now apply Z.mod_small. Qed.

Lemma u64_small (x : Z) : 0 <= x < 2 ^ 64 -> u64 x = x.
Proof. apply wrap_small. Qed.

Lemma u64_range (x : Z) : 0 <= u64 x < 2 ^ 64.
Proof. unfold u64, wrap. apply Z.mod_pos_bound. lia. Qed.

Lemma u64_minus_one : u64 (0 - 1) = 2 ^ 64 - 1.
Proof. reflexivity. Qed.

(** ** Traces *)

Lemma reads_app (t1 t2 : list event) : reads (t1 ++ t2) = reads t1 ++ reads t2.
Proof.
  induction t1 as [|e t1 IH]; [reflexivity|].
  destruct e; simpl; now rewrite ?IH.
Qed.

Lemma existsb_failed_app (t1 t2 : list event) :
  existsb is_failed_read (t1 ++ t2) = existsb is_failed_read t1 || existsb is_failed_read t2.
Proof. apply existsb_app. Qed.

(** Unfolds the state transformers of [getInode]. *)
Ltac unfold_getInode :=
  unfold getInode, getGroupByInode, getGroup, new_inode, read, emit,
         bind, ret, get, undefined in *.

Section Inodes.
Context `{Env}.

(** [getInode] leaves the superblock, the group table and the file
    cache tree alone. *)
Lemma getInode_frame (n : Z) (s s' : LinnFileSystem) (r : option LinnInodePtr) :
  getInode n s = Some (r, s') ->
  super s' = super s /\ groups s' = groups s /\
  root s' = root s /\ fcache s' = fcache s.
Proof.
  unfold_getInode. intros Hrun.
  repeat case_match; simplify_eq/=; auto.
Qed.

(** A call that returns [ZERO] has put nothing in the inode cache. *)
Lemma getInode_none_inodes (n : Z) (s s' : LinnFileSystem) :
  getInode n s = Some (None, s') -> inodes s' = inodes s.
Proof.
  unfold_getInode. intros Hrun.
  repeat case_match; simplify_eq/=; auto.
Qed.

(** A call that returns an inode leaves it cached under its number,
    and the number had passed the validation. *)
Lemma getInode_some_cached (n : Z) (s s' : LinnFileSystem) (p : LinnInodePtr) :
  getInode n s = Some (Some p, s') ->
  inodes s' !! n = Some p /\ (inodesCount (super s') <=? n) = false.
Proof.
  unfold_getInode. intros Hrun.
  repeat case_match; simplify_eq/=; auto.
  split; [apply lookup_insert_eq | assumption].
Qed.

(** A cached inode is returned as it is, and nothing happens. *)
Lemma getInode_hit (n : Z) (s : LinnFileSystem) (p : LinnInodePtr) :
  (inodesCount (super s) <=? n) = false ->
  inodes s !! n = Some p ->
  getInode n s = Some (Some p, s).
Proof.
  intros Hvalid Hcached. unfold_getInode. now rewrite Hvalid, Hcached.
Qed.

(** What a cache miss does, once the group descriptor is found. *)
Lemma getInode_miss (n : Z) (s : LinnFileSystem) (group : LinnGroup) :
  (inodesCount (super s) <=? n) = false ->
  inodes s !! n = None ->
  inodesPerGroup (super s) <> 0 ->
  Array_at (groups s) (group_of_inode (super s) n) = Some group ->
  exists r s' res,
    getInode n s = Some (r, s') /\
    trace s' = trace s ++
      EvNew KInode :: EvRead (inode_offset (super s) group n) sizeof_LinnInode res ::
      (if res <=? 0 then [] else [EvNew KInteger]) /\
    (r = None <-> res <= 0).
Proof.
  intros Hvalid Hmiss Hipg Hgroup.
  unfold_getInode. rewrite Hvalid, Hmiss.
  apply Z.eqb_neq in Hipg. rewrite Hipg. simpl. rewrite Hgroup. simpl.
  destruct (storage_read (storage s) (inode_offset (super s) group n) sizeof_LinnInode)
    as [d [res buf]] eqn:Hread.
  simpl. destruct (res <=? 0) eqn:Hres; simpl.
  - eexists _, _, res. rewrite Hres. split; [reflexivity|].
    split; [simpl; now rewrite <- app_assoc|]. split; [lia | reflexivity].
  - eexists _, _, res. rewrite Hres. split; [reflexivity|].
    split; [simpl; now rewrite <- !app_assoc|]. split; [discriminate | lia].
Qed.

(** C4.  On a cache miss for an inode number [n] that passed the
    validation and whose group descriptor is found, [getInode] issues
    exactly one storage read, of the size of one inode record, at the
    byte offset [group.inodeTable * blockSize + (n mod inodesPerGroup)]
    held in a [Size]: the position within the group is added as it is,
    it is not multiplied by the size of an inode record.  The offset is
    that sum itself whenever the product and the sum fit their types. *)
Theorem getInode_miss_reads_unscaled_offset
    (s : LinnFileSystem) (n : Z) (group : LinnGroup) :
  n < inodesCount (super s) ->
  inodes s !! n = None ->
  0 < inodesPerGroup (super s) ->
  Array_at (groups s) (group_of_inode (super s) n) = Some group ->
  exists r s' evs offset res,
    getInode n s = Some (r, s') /\
    trace s' = trace s ++ evs /\
    reads evs = [EvRead offset sizeof_LinnInode res] /\
    offset =
      wrap size_bits
        (wrap 64 (wrap table_bits (inodeTable group * blockSize (super s))
                  + n mod inodesPerGroup (super s))) /\
    (0 <= inodeTable group * blockSize (super s) < 2 ^ table_bits ->
     inodeTable group * blockSize (super s) + n mod inodesPerGroup (super s) < 2 ^ 64 ->
     inodeTable group * blockSize (super s) + n mod inodesPerGroup (super s) < 2 ^ size_bits ->
     offset = inodeTable group * blockSize (super s) + n mod inodesPerGroup (super s)).
Proof.
  intros Hvalid Hmiss Hipg Hgroup.
  destruct (getInode_miss n s group) as (r & s' & res & Hrun & Htrace & _);
    [now apply Z.leb_gt | assumption | lia | assumption |].
  eexists r, s', _, _, res. split; [exact Hrun|]. split; [exact Htrace|].
  split; [now destruct (res <=? 0)|]. split; [reflexivity|].
  intros Hprod H64 Hsize.
  pose proof (Z.mod_pos_bound n (inodesPerGroup (super s)) Hipg) as Hmod.
  unfold inode_offset, Size, u64.
  rewrite (wrap_small table_bits) by assumption.
  rewrite (wrap_small 64) by lia.
  apply wrap_small. lia.
Qed.

(** C5.  When a call [getInode(n)] has returned an inode, the next call
    [getInode(n)] returns the same pointer and leaves the whole state as
    it found it: the trace gains no storage read and no allocation. *)
Theorem getInode_twice_same_object
    (s s' : LinnFileSystem) (n : Z) (p : LinnInodePtr) :
  getInode n s = Some (Some p, s') ->
  getInode n s' = Some (Some p, s').
Proof.
  intros Hfirst.
  destruct (getInode_some_cached n s s' p Hfirst) as [Hcached Hvalid].
  now apply getInode_hit.
Qed.

(** C10.  For inode number 0, with a positive inode count and nothing
    cached under 0, the validation lets the number through and the group
    number is [(0 - 1) / inodesPerGroup] in [u64], that is
    [(2^64 - 1) / inodesPerGroup], which is never group 0.  Whether
    [getInode(0)] returns [ZERO] is decided by the group table alone:
    with that index outside the table the call returns [ZERO] and does
    nothing else; with a descriptor stored at that index the call goes
    on to read storage. *)
Theorem getInode_zero_relies_on_group_lookup (s : LinnFileSystem) :
  0 < inodesCount (super s) ->
  inodes s !! 0 = None ->
  0 < inodesPerGroup (super s) < 2 ^ 64 ->
  let g := (2 ^ 64 - 1) / inodesPerGroup (super s) in
  group_of_inode (super s) 0 = g /\
  1 <= g /\
  getGroupByInode 0 s = Some (Array_at (groups s) g, s) /\
  (Z.of_nat (length (groups s)) <= g -> getInode 0 s = Some (None, s)) /\
  (forall group, Array_at (groups s) g = Some group ->
     exists r s' evs offset res,
       getInode 0 s = Some (r, s') /\
       trace s' = trace s ++ evs /\
       reads evs = [EvRead offset sizeof_LinnInode res]).
Proof.
  intros Hcount Hmiss Hipg g.
  assert (Hg : group_of_inode (super s) 0 = g).
  { unfold group_of_inode. now rewrite u64_minus_one. }
  assert (Hne : (inodesPerGroup (super s) =? 0) = false) by (apply Z.eqb_neq; lia).
  split; [exact Hg|]. split.
  { subst g. apply Z.div_le_lower_bound; lia. }
  split.
  { unfold_getInode. rewrite Hne. simpl. now rewrite Hg. }
  split.
  - intros Hout. unfold_getInode.
    replace (inodesCount (super s) <=? 0) with false by (symmetry; apply Z.leb_gt; lia).
    rewrite Hmiss, Hne. simpl. rewrite Hg.
    unfold Array_at. replace (g <? Z.of_nat (length (groups s))) with false
      by (symmetry; apply Z.ltb_ge; lia).
    reflexivity.
  - intros group Hgroup.
    destruct (getInode_miss 0 s group) as (r & s' & res & Hrun & Htrace & _);
      [apply Z.leb_gt; lia | assumption | lia | now rewrite Hg |].
    eexists r, s', _, _, res. split; [exact Hrun|]. split; [exact Htrace|].
    now destruct (res <=? 0).
Qed.

End Inodes.

(** ** Block address translation *)

(** Unfolds the state transformers of [getOffset]. *)
Ltac unfold_getOffset :=
  unfold getOffset_final, read, emit, bind, ret, get, undefined in *.

Section Offsets.
Context `{Env}.

(** The three cases of the depth selection. *)
Lemma getOffset_depth_cases (sb : LinnSuperBlock) (blk : Z) :
  0 <= LINN_INODE_DIR_BLOCKS ->
  LINN_INODE_DIR_BLOCKS <= blk < 2 ^ 64 ->
  let n := u64 (LINN_SUPER_NUM_PTRS sb) in
  let k := blk - LINN_INODE_DIR_BLOCKS in
  (k < n /\ getOffset_depth sb blk = 1%nat) \/
  (n <= k < u64 (n * n) /\ getOffset_depth sb blk = 2%nat) \/
  (n <= k /\ u64 (n * n) <= k /\ getOffset_depth sb blk = 3%nat).
Proof.
  intros Hdir Hblk n k. unfold getOffset_depth. fold n.
  rewrite (u64_small (blk - LINN_INODE_DIR_BLOCKS)) by lia. fold k.
  destruct (k <? n) eqn:H1; [left; split; [lia | reflexivity]|].
  destruct (k <? u64 (n * n)) eqn:H2; [right; left | right; right];
    repeat split; lia.
Qed.

(** The loop and the statements after it always return when the fan-out
    and the divisor are not zero, and end in one of the two ways. *)
Lemma getOffset_walk_outcome (sb : LinnSuperBlock) (blk : Z) (d : nat) :
  u64 (LINN_SUPER_NUM_PTRS sb) <> 0 ->
  u64 (u64 (blk - LINN_INODE_DIR_BLOCKS) + 1) <> 0 ->
  forall (offset : Z) (buf : list Z) (s : LinnFileSystem),
  exists r s' evs,
    getOffset_walk sb blk d offset buf s = Some (r, s') /\
    trace s' = trace s ++ evs /\
    (completes d evs \/ aborts d r evs).
Proof.
  intros Hn Hdiv. apply Z.eqb_neq in Hn. apply Z.eqb_neq in Hdiv.
  induction d as [|d IH]; intros offset buf s.
  - simpl. unfold_getOffset. rewrite Hn. simpl.
    eexists _, _, [_; _]. split; [reflexivity|].
    split; [now rewrite <- app_assoc|].
    left. split; reflexivity.
  - cbn [getOffset_walk]. unfold read, bind at 1.
    destruct (storage_read (storage s) offset (blockSize sb)) as [dev [res bytes]].
    cbn [fst snd]. destruct (res <? 0) eqn:Hres.
    + unfold emit, bind, ret. simpl.
      eexists _, _, [_; _]. split; [reflexivity|].
      split; [now rewrite <- app_assoc|].
      right. split; [reflexivity|]. split; [simpl; lia|].
      exists [], offset, (blockSize sb), res. repeat split. lia.
    + rewrite Hdiv. unfold emit at 1, bind at 1.
      match goal with
      | |- context [getOffset_walk sb blk d ?o ?b ?st] =>
          destruct (IH o b st) as (r & s' & evs & Hrun & Htrace & Hend)
      end.
      exists r, s', (EvRead offset (blockSize sb) res :: EvIndex
        (u64 (getOffset_remain sb (S d)) / u64 (u64 (blk - LINN_INODE_DIR_BLOCKS) + 1)) :: evs).
      split; [exact Hrun|]. split.
      { rewrite Htrace. simpl. now rewrite <- !app_assoc. }
      destruct Hend as [[Hok Hlen] | (Hr & Hlen & pre & o & l & e & Hevs & He & Hpre)].
      * left. split; [simpl; now rewrite Hres | simpl; now rewrite Hlen].
      * right. split; [exact Hr|]. split; [simpl; lia|].
        exists (EvRead offset (blockSize sb) res :: EvIndex
          (u64 (getOffset_remain sb (S d)) / u64 (u64 (blk - LINN_INODE_DIR_BLOCKS) + 1)) :: pre),
          o, l, e.
        split; [now rewrite Hevs|]. split; [exact He|]. simpl. now rewrite Hres.
Qed.

(** [getOffset] past the direct pointers: the pointer block is
    allocated, then the loop runs from the inode's pointer for the
    depth. *)
Lemma getOffset_indirect (inode : LinnInode) (blk : Z) (s : LinnFileSystem) :
  LINN_INODE_DIR_BLOCKS <= blk ->
  getOffset inode blk s =
    getOffset_walk (super s) blk (getOffset_depth (super s) blk)
      (u64 (inode_block inode
              (LINN_INODE_DIR_BLOCKS + Z.of_nat (getOffset_depth (super s) blk) - 1)
            * blockSize (super s)))
      [] (with_trace (trace s ++ [EvNew KBlock]) s).
Proof.
  intros Hblk. unfold getOffset, bind, get, emit.
  replace (blk <? LINN_INODE_DIR_BLOCKS) with false by (symmetry; apply Z.ltb_ge; lia).
  reflexivity.
Qed.

(** [getOffset] returns for every block index, and its events end in
    one of the two ways for the depth chosen. *)
Lemma getOffset_outcome (inode : LinnInode) (blk : Z) (s : LinnFileSystem) :
  0 < LINN_INODE_DIR_BLOCKS ->
  LINN_INODE_DIR_BLOCKS <= blk < 2 ^ 64 ->
  0 < u64 (LINN_SUPER_NUM_PTRS (super s)) ->
  exists r s' evs,
    getOffset inode blk s = Some (r, s') /\
    trace s' = trace s ++ evs /\
    (completes (getOffset_depth (super s) blk) evs \/
     aborts (getOffset_depth (super s) blk) r evs).
Proof.
  intros Hdir Hblk Hn.
  rewrite getOffset_indirect by lia.
  match goal with
  | |- context [getOffset_walk ?sb blk ?d ?o ?b ?st] =>
      destruct (getOffset_walk_outcome sb blk d) with (offset := o) (buf := b) (s := st)
        as (r & s' & evs & Hrun & Htrace & Hend)
  end.
  - lia.
  - rewrite (u64_small (blk - LINN_INODE_DIR_BLOCKS)) by lia.
    rewrite u64_small by lia. lia.
  - exists r, s', (EvNew KBlock :: evs).
    split; [exact Hrun|]. split; [rewrite Htrace; simpl; now rewrite <- app_assoc|].
    destruct Hend as [[Hok Hlen] | (Hr & Hlen & pre & o & l & e & Hevs & He & Hpre)].
    + left. split; assumption.
    + right. split; [exact Hr|]. split; [exact Hlen|].
      exists (EvNew KBlock :: pre), o, l, e. split; [now rewrite Hevs|]. now split.
Qed.

(** An aborted translation holds a failed read. *)
Lemma aborts_has_failed_read (d : nat) (r : Z) (evs : list event) :
  aborts d r evs -> existsb is_failed_read evs = true.
Proof.
  intros (_ & _ & pre & o & l & e & -> & He & _).
  rewrite existsb_failed_app. simpl.
  replace (e <? 0) with true by (symmetry; apply Z.ltb_lt; lia).
  apply orb_true_r.
Qed.

(** One turn of the loop whose read did not fail: the slot read from
    the block is [remain / (blk - LINN_INODE_DIR_BLOCKS + 1)], and the
    loop goes on from the pointer found there. *)
Lemma getOffset_walk_read_ok (sb : LinnSuperBlock) (blk : Z) (d : nat)
    (offset : Z) (buf : list Z) (s : LinnFileSystem)
    (dev : Storage) (res : Z) (bytes : list Byte.byte) :
  storage_read (storage s) offset (blockSize sb) = (dev, (res, bytes)) ->
  0 <= res ->
  u64 (u64 (blk - LINN_INODE_DIR_BLOCKS) + 1) <> 0 ->
  let slot := u64 (getOffset_remain sb (S d)) / u64 (u64 (blk - LINN_INODE_DIR_BLOCKS) + 1) in
  getOffset_walk sb blk (S d) offset buf s =
    getOffset_walk sb blk d
      (u64 (block_at (as_u64s bytes) slot * blockSize sb)) (as_u64s bytes)
      (with_trace ((trace s ++ [EvRead offset (blockSize sb) res]) ++ [EvIndex slot])
         (with_storage dev s)).
Proof.
  intros Hread Hres Hdiv slot. apply Z.eqb_neq in Hdiv.
  cbn [getOffset_walk]. unfold read, bind at 1. rewrite Hread. cbn [fst snd].
  replace (res <? 0) with false by (symmetry; apply Z.ltb_ge; lia).
  rewrite Hdiv. reflexivity.
Qed.

(** The first block of the double indirect range, [n] past the direct
    pointers: the loop reads slot [n * n / (n + 1) = n - 1] of the
    double indirect block, where the digit of the specification is 0. *)
Lemma getOffset_first_double_indirect_slot (sb : LinnSuperBlock) :
  let n := LINN_SUPER_NUM_PTRS sb in
  let blk := LINN_INODE_DIR_BLOCKS + n in
  2 <= n -> n * n < 2 ^ size_bits -> size_bits <= 64 ->
  u64 (getOffset_remain sb 2) / u64 (u64 (blk - LINN_INODE_DIR_BLOCKS) + 1) = n - 1 /\
  Spec.digit n (blk - LINN_INODE_DIR_BLOCKS - Spec.range_base n 2) 1 = 0.
Proof.
  intros n blk Hn Hsq Hbits.
  assert (Hpow : 2 ^ size_bits <= 2 ^ 64) by (apply Z.pow_le_mono_r; lia).
  assert (Hremain : getOffset_remain sb 2 = n * n).
  { unfold getOffset_remain, Size. simpl. fold n.
    rewrite (wrap_small size_bits n) by nia. apply wrap_small. nia. }
  rewrite Hremain. subst blk.
  replace (LINN_INODE_DIR_BLOCKS + n - LINN_INODE_DIR_BLOCKS) with n by lia.
  rewrite (u64_small n) by nia. rewrite (u64_small (n + 1)) by nia.
  rewrite (u64_small (n * n)) by nia. split.
  - symmetry. apply Z.div_unique with 1; lia.
  - unfold Spec.digit, Spec.range_base. rewrite Z.sub_diag. simpl.
    rewrite Z.div_0_l by lia. apply Z.mod_0_l. lia.
Qed.

(** C2, as the code has it.  For a block index at or past the direct
    pointers, with [k] the index counted from the end of the direct
    pointers and [n] the fan-out: depth 1 when [k < n], depth 2 when
    [n <= k < n * n], the product taken in [u64], and depth 3 for every
    other index.  Depth 2 thus covers [n * n - n] indices, not [n * n]. *)
Theorem getOffset_depth_ranges (sb : LinnSuperBlock) (blk : Z) :
  0 <= LINN_INODE_DIR_BLOCKS ->
  LINN_INODE_DIR_BLOCKS <= blk < 2 ^ 64 ->
  let n := u64 (LINN_SUPER_NUM_PTRS sb) in
  let k := blk - LINN_INODE_DIR_BLOCKS in
  (k < n -> getOffset_depth sb blk = 1%nat) /\
  (n <= k < u64 (n * n) -> getOffset_depth sb blk = 2%nat) /\
  (n <= k -> u64 (n * n) <= k -> getOffset_depth sb blk = 3%nat) /\
  (n * n < 2 ^ 64 -> u64 (n * n) = n * n).
Proof.
  intros Hdir Hblk n k.
  destruct (getOffset_depth_cases sb blk Hdir Hblk) as [[H1 ->] | [[H2 ->] | (H3 & H4 & ->)]];
    fold n k in H1 || fold n k in H2 || fold n k in H3, H4.
  all: repeat split; try reflexivity; try lia.
  all: intros Hsq; apply u64_small; pose proof (u64_range (LINN_SUPER_NUM_PTRS sb)); nia.
Qed.

(** C3.  [getOffset] returns for every block index.  For an index
    below the direct pointer count it does nothing but compute the
    offset; otherwise the storage reads it performs are at most one, two
    or three according to the range of the index, and exactly that many
    whenever none of them failed, which is when the final offset is
    produced.  The ranges are those of the depth selection, [k < n],
    [n <= k < n * n] and the rest, and not those of the specification:
    of its double indirect range, [n <= k < n + n * n], the indices
    from [n * n] on are read three times. *)
Theorem getOffset_read_count (inode : LinnInode) (blk : Z) (s : LinnFileSystem) :
  0 < LINN_INODE_DIR_BLOCKS ->
  0 <= blk < 2 ^ 64 ->
  0 < u64 (LINN_SUPER_NUM_PTRS (super s)) ->
  let n := u64 (LINN_SUPER_NUM_PTRS (super s)) in
  let k := blk - LINN_INODE_DIR_BLOCKS in
  let exactly (d : nat) (evs : list event) :=
    (length (reads evs) <= d)%nat /\
    (existsb is_failed_read evs = false -> length (reads evs) = d) in
  exists r s' evs,
    getOffset inode blk s = Some (r, s') /\
    trace s' = trace s ++ evs /\
    (blk < LINN_INODE_DIR_BLOCKS -> evs = [] /\ exactly 0%nat evs) /\
    (0 <= k < n -> exactly 1%nat evs) /\
    (n <= k < u64 (n * n) -> exactly 2%nat evs) /\
    (n <= k -> u64 (n * n) <= k -> exactly 3%nat evs).
Proof.
  intros Hdir Hblk Hn n k exactly.
  destruct (Z.lt_ge_cases blk LINN_INODE_DIR_BLOCKS) as [Hdirect | Hindirect].
  - exists (u64 (wrap pointer_bits (inode_block inode blk * blockSize (super s)))), s, [].
    split.
    { unfold getOffset, bind, get, ret.
      now replace (blk <? LINN_INODE_DIR_BLOCKS) with true by (symmetry; apply Z.ltb_lt; lia). }
    split; [now rewrite app_nil_r|].
    subst k. repeat split; intros; try lia; simpl; lia.
  - destruct (getOffset_outcome inode blk s) as (r & s' & evs & Hrun & Htrace & Hend);
      [lia | lia | lia |].
    exists r, s', evs. split; [exact Hrun|]. split; [exact Htrace|].
    assert (Hexact : exactly (getOffset_depth (super s) blk) evs).
    { destruct Hend as [[Hok Hlen] | Habort].
      - split; [lia | auto].
      - pose proof (aborts_has_failed_read _ _ _ Habort) as Hfailed.
        destruct Habort as (_ & Hlen & _). split; [exact Hlen | congruence]. }
    destruct (getOffset_depth_cases (super s) blk) as [[H1 Hd] | [[H2 Hd] | (H3 & H4 & Hd)]];
      [lia | lia | | | ]; fold n k in H1 || fold n k in H2 || fold n k in H3, H4;
      rewrite Hd in Hexact.
    all: split; [intros; lia|].
    all: repeat split; intros; try lia; try (apply Hexact; assumption); try apply Hexact.
Qed.

(** C9.  For a block index past the direct pointers [getOffset]
    returns, and if one of the storage reads it performed failed, that
    read is the last thing it did apart from releasing the pointer
    block, and it returned [0], not the negative code the read
    reported. *)
Theorem getOffset_stops_at_failed_read
    (inode : LinnInode) (blk : Z) (s : LinnFileSystem) :
  0 < LINN_INODE_DIR_BLOCKS ->
  LINN_INODE_DIR_BLOCKS <= blk < 2 ^ 64 ->
  0 < u64 (LINN_SUPER_NUM_PTRS (super s)) ->
  exists r s' evs,
    getOffset inode blk s = Some (r, s') /\
    trace s' = trace s ++ evs /\
    forall offset len res,
      In (EvRead offset len res) evs -> res < 0 ->
      r = 0 /\ r <> res /\
      exists pre, evs = pre ++ [EvRead offset len res; EvDelete KBlock].
Proof.
  intros Hdir Hblk Hn.
  destruct (getOffset_outcome inode blk s Hdir Hblk Hn) as (r & s' & evs & Hrun & Htrace & Hend).
  exists r, s', evs. split; [exact Hrun|]. split; [exact Htrace|].
  intros offset len res Hin Hres.
  assert (Hbad : is_failed_read (EvRead offset len res) = true)
    by (simpl; apply Z.ltb_lt; lia).
  destruct Hend as [[Hok _] | (Hr & _ & pre & o & l & e & Hevs & He & Hpre)].
  - exfalso. assert (Hex : existsb is_failed_read evs = true)
      by (apply existsb_exists; eauto).
    congruence.
  - split; [exact Hr|]. split; [lia|]. exists pre. rewrite Hevs in Hin |- *.
    apply in_app_or in Hin. destruct Hin as [Hin | Hin].
    + exfalso. assert (Hex : existsb is_failed_read pre = true)
        by (apply existsb_exists; eauto).
      congruence.
    + simpl in Hin. destruct Hin as [Heq | [Heq | []]]; [|discriminate].
      now inversion Heq.
Qed.

End Offsets.

(** ** Linking a node *)

Section Tree.

Lemma keeps_nodes_refl (h : list FileCache) : keeps_nodes h h.
Proof. intros c node Hc. now exists node. Qed.

Lemma keeps_nodes_trans (h1 h2 h3 : list FileCache) :
  keeps_nodes h1 h2 -> keeps_nodes h2 h3 -> keeps_nodes h1 h3.
Proof.
  intros H12 H23 c node Hc.
  destruct (H12 c node Hc) as (node2 & Hc2 & Hfile2).
  destruct (H23 c node2 Hc2) as (node3 & Hc3 & Hfile3).
  exists node3. split; [exact Hc3 | congruence].
Qed.

(** Linking a new child moves no node and changes no [File]. *)
Lemma link_child_keeps_nodes (h : list FileCache) (f : File) (parent : nat)
    (name : string) :
  keeps_nodes h (link_child h f parent name).
Proof.
  intros c node Hc. unfold link_child.
  destruct (decide (parent = c)) as [->|Hne].
  - rewrite list_lookup_alter_eq, (lookup_app_l_Some _ _ _ _ Hc). simpl. eauto.
  - rewrite list_lookup_alter_ne by assumption.
    rewrite (lookup_app_l_Some _ _ _ _ Hc). eauto.
Qed.

Lemma link_child_length (h : list FileCache) (f : File) (parent : nat) (name : string) :
  length (link_child h f parent name) = S (length h).
Proof. unfold link_child. rewrite length_alter, length_app. simpl. lia. Qed.

(** The tables of the nodes other than the parent are what they were. *)
Lemma link_child_elsewhere (h : list FileCache) (f : File) (parent : nat)
    (name : string) (c : nat) (node : FileCache) (nm : string) :
  h !! c = Some node ->
  c <> parent ->
  child_of (link_child h f parent name) c nm = entries node !! nm.
Proof.
  intros Hc Hne. unfold child_of, link_child.
  rewrite list_lookup_alter_ne by congruence.
  now rewrite (lookup_app_l_Some _ _ _ _ Hc).
Qed.

(** Linking a child under a directory keeps regular files without
    children. *)
Lemma link_child_leaves (h : list FileCache) (f : File) (parent : nat)
    (name : string) (node : FileCache) :
  h !! parent = Some node ->
  getType (file node) = DirectoryFile ->
  files_are_leaves h ->
  files_are_leaves (link_child h f parent name).
Proof.
  intros Hparent Hdir Hleaves c nd. unfold link_child.
  destruct (decide (parent = c)) as [->|Hne].
  - rewrite list_lookup_alter_eq, (lookup_app_l_Some _ _ _ _ Hparent). simpl.
    intros [= <-]. simpl. congruence.
  - rewrite list_lookup_alter_ne by assumption.
    intros Hc. apply lookup_snoc_Some in Hc as [[_ Hc] | [_ <-]].
    + now apply Hleaves with c.
    + reflexivity.
Qed.

End Tree.

(** ** What a call keeps *)

Lemma count_events_app (f : event -> bool) (t1 t2 : list event) :
  count_events f (t1 ++ t2) = (count_events f t1 + count_events f t2)%nat.
Proof.
  induction t1 as [|e t1 IH]; [reflexivity|].
  simpl. destruct (f e); simpl; now rewrite IH.
Qed.

(** Closes a goal [exists evs, t ++ ... = t ++ evs /\ ...] on the events
    a call appended. *)
Ltac appended :=
  rewrite <- ?app_assoc;
  first [ exists []; split; [now rewrite app_nil_r|]
        | eexists; split; [reflexivity|] ].

Section Growth.
Context `{Env}.

Lemma grows_refl (s : LinnFileSystem) : grows s s.
Proof.
  repeat split; try reflexivity; try lia.
  - apply keeps_nodes_refl.
  - exists []. now rewrite app_nil_r.
Qed.

Lemma grows_trans (s1 s2 s3 : LinnFileSystem) :
  grows s1 s2 -> grows s2 s3 -> grows s1 s3.
Proof.
  intros (Hsb & Hg & Hr & Hi & Hn & He & Hl & evs & Ht)
         (Hsb' & Hg' & Hr' & Hi' & Hn' & He' & Hl' & evs' & Ht').
  repeat split; try congruence; try lia.
  - now transitivity (inodes s2).
  - now apply keeps_nodes_trans with (fcache s2).
  - exists (evs ++ evs'). now rewrite Ht', Ht, app_assoc.
Qed.

(** All that a [getInode] call does to the state. *)
Lemma getInode_effect (n : Z) (s s' : LinnFileSystem) (r : option LinnInodePtr) :
  getInode n s = Some (r, s') ->
  super s' = super s /\ groups s' = groups s /\ root s' = root s /\
  fcache s' = fcache s /\
  (exists evs, trace s' = trace s ++ evs /\
     (length (reads evs) <= 1)%nat /\
     count_events is_getEntry evs = 0%nat /\
     count_events is_new_FileCache evs = 0%nat) /\
  ((inodes s' = inodes s /\ (nobj s <= nobj s')%nat /\
    (r = None \/ (r = inodes s !! n /\ s' = s))) \/
   (exists p, r = Some p /\ inodes s !! n = None /\ n < inodesCount (super s) /\
      addr p = nobj s /\ nobj s' = S (nobj s) /\
      inodes s' = <[n := p]> (inodes s))).
Proof.
  unfold_getInode. intros Hrun.
  repeat case_match; simplify_eq/=; repeat split; auto.
  all: try (appended; repeat split; simpl; lia).
  all: try (left; repeat split; auto; lia).
  right. eexists. repeat split; auto. now apply Z.leb_gt.
Qed.

Lemma getInode_grows (n : Z) (s s' : LinnFileSystem) (r : option LinnInodePtr) :
  getInode n s = Some (r, s') -> grows s s'.
Proof.
  intros Hrun.
  apply getInode_effect in Hrun
    as (Hsb & Hg & Hr & Hfc & (evs & Ht & _) & Hcache).
  repeat split; auto.
  - destruct Hcache as [(-> & _) | (p & _ & Hmiss & _ & _ & _ & ->)];
      [reflexivity | now apply insert_subseteq].
  - destruct Hcache as [(_ & Hn & _) | (p & _ & _ & _ & _ & -> & _)]; lia.
  - rewrite Hfc. apply keeps_nodes_refl.
  - now rewrite Hfc.
  - now exists evs.
Qed.

(** [getInode] keeps the inode cache in order. *)
Lemma getInode_inodes_ok (n : Z) (s s' : LinnFileSystem) (r : option LinnInodePtr) :
  getInode n s = Some (r, s') -> inodes_ok s -> inodes_ok s'.
Proof.
  intros Hrun (Hvalid & Hfresh & Hdistinct).
  apply getInode_effect in Hrun as (Hsb & _ & _ & _ & _ & Hcache).
  unfold inodes_ok.
  destruct Hcache as [(Hi & Hn & _) | (p & _ & Hmiss & Hlt & Haddr & Hn & Hi)];
    rewrite Hi, ?Hsb.
  - repeat split; [exact Hvalid | | exact Hdistinct].
    intros m q Hq. specialize (Hfresh m q Hq). lia.
  - rewrite Hn. repeat split.
    + intros m q. rewrite lookup_insert. case_decide; [intros _; now subst | apply Hvalid].
    + intros m q. rewrite lookup_insert.
      case_decide; [intros [= <-]; lia | intros Hq; specialize (Hfresh m q Hq); lia].
    + intros m1 m2 q1 q2. rewrite !lookup_insert.
      repeat case_decide; subst; try congruence.
      * intros [= <-] Hq2 Heq. specialize (Hfresh m2 q2 Hq2). lia.
      * intros Hq1 [= <-] Heq. specialize (Hfresh m1 q1 Hq1). lia.
      * apply Hdistinct.
Qed.

(** All that [dir->getEntry] does to the state. *)
Lemma getEntry_effect (dir : LinnInodePtr) (name : string) (s s' : LinnFileSystem)
    (e : option Z) :
  getEntry dir name s = Some (e, s') ->
  super s' = super s /\ groups s' = groups s /\ root s' = root s /\
  fcache s' = fcache s /\ inodes s' = inodes s /\ nobj s' = nobj s /\
  trace s' = trace s ++ [EvGetEntry (addr dir) name].
Proof.
  unfold getEntry. destruct (dir_getEntry (storage s) dir name) as [d r].
  intros [= _ <-]. simpl. repeat split.
Qed.

End Growth.

(** ** Path lookup *)

Section Lookup.
Context `{Env}.

(** [getOffset] leaves the file cache tree alone. *)
Lemma getOffset_walk_frame (sb : LinnSuperBlock) (blk : Z) (d : nat) :
  forall (offset : Z) (buf : list Z) (s s' : LinnFileSystem) (r : Z),
  getOffset_walk sb blk d offset buf s = Some (r, s') ->
  root s' = root s /\ fcache s' = fcache s.
Proof.
  induction d as [|d IH]; intros offset buf s s' r Hrun.
  - simpl in Hrun. unfold_getOffset.
    repeat case_match; simplify_eq/=; auto.
  - cbn [getOffset_walk] in Hrun. unfold read, bind at 1 in Hrun.
    destruct (storage_read (storage s) offset (blockSize sb)) as [dev [res bytes]].
    cbn [fst snd] in Hrun. destruct (res <? 0).
    + unfold emit, bind, ret in Hrun. simplify_eq/=. auto.
    + destruct (u64 (u64 (blk - LINN_INODE_DIR_BLOCKS) + 1) =? 0); [discriminate|].
      unfold emit at 1, bind at 1 in Hrun. apply IH in Hrun. exact Hrun.
Qed.

Lemma getOffset_frame (inode : LinnInode) (blk : Z) (s s' : LinnFileSystem) (r : Z) :
  getOffset inode blk s = Some (r, s') ->
  root s' = root s /\ fcache s' = fcache s.
Proof.
  unfold getOffset, bind, get, ret. destruct (blk <? LINN_INODE_DIR_BLOCKS).
  - intros [= _ <-]. auto.
  - unfold emit. intros Hrun. apply getOffset_walk_frame in Hrun. exact Hrun.
Qed.

(** Every way the loop body runs: the child was cached; the current
    node wraps no directory; the directory has no such entry; the inode
    is not to be had; the inode is of another type; or a node is made,
    and entered in the table of the root. *)
Lemma lookupFile_entry_run (name : string) (c : nat) (s s' : LinnFileSystem)
    (r : option nat) :
  lookupFile_entry name c s = Some (r, s') ->
  exists node, fcache s !! c = Some node /\
    ((exists child, entries node !! name = Some child /\ r = Some child /\ s' = s) \/
     (entries node !! name = None /\ getType (file node) <> DirectoryFile /\
      r = None /\ s' = s) \/
     (entries node !! name = None /\
      exists dir e s1 ri s2,
        file node = LinnDirectory dir /\
        getEntry dir name s = Some (e, s1) /\
        match e with
        | None => ri = None /\ s2 = s1
        | Some ino => getInode ino s1 = Some (ri, s2)
        end /\
        match ri with
        | None => r = None /\ s' = s2
        | Some inode =>
          match type (obj inode) with
          | OtherFile => r = None /\ s' = s2
          | _ =>
            exists f, getType f = type (obj inode) /\ file_inode f = inode /\
              r = Some (length (fcache s2)) /\
              s' = with_trace (trace s2 ++ [EvNew KFile; EvNew KFileCache])
                     (with_fcache (link_child (fcache s2) f (root s2) name) s2)
          end
        end)).
Proof.
  unfold lookupFile_entry, deref. unfold bind at 1.
  destruct (fcache s !! c) as [node|] eqn:Hnode; [|discriminate].
  intros Hrun. exists node. split; [reflexivity|].
  destruct (entries node !! name) as [child|] eqn:Hentry.
  { left. exists child. unfold ret in Hrun. now simplify_eq. }
  right. destruct (file node) as [dir|reg] eqn:Hfile.
  2: { left. unfold ret in Hrun. simplify_eq. repeat split; auto; discriminate. }
  right. split; [reflexivity|]. unfold bind at 1 in Hrun.
  destruct (getEntry dir name s) as [[e s1]|] eqn:Hentry1; [|discriminate].
  destruct e as [ino|].
  2: { unfold ret in Hrun. injection Hrun as <- <-. exists dir, None, s1, None, s1. auto. }
  unfold bind at 1 in Hrun.
  destruct (getInode ino s1) as [[ri s2]|] eqn:Hinode; [|discriminate].
  exists dir, (Some ino), s1, ri, s2. do 3 (split; [auto|]).
  destruct ri as [inode|]; [|unfold ret in Hrun; injection Hrun as <- <-; auto].
  destruct (type (obj inode)) eqn:Htype;
    unfold emit, insertFileCache, bind, ret in Hrun; simplify_eq/=.
  - exists (LinnDirectory inode). simpl. rewrite <- app_assoc. auto.
  - exists (LinnFile inode). simpl. rewrite <- app_assoc. auto.
  - auto.
Qed.

(** The three ways the loop body ends, for the tree: the child was
    cached and nothing happened; the body returned [ZERO] and the tree
    is as it was; a new node was made, at a directory, and linked under
    the root. *)
Lemma lookupFile_entry_inv (name : string) (c : nat) (s s' : LinnFileSystem)
    (r : option nat) :
  lookupFile_entry name c s = Some (r, s') ->
  exists node, fcache s !! c = Some node /\
    ((exists child, entries node !! name = Some child /\ r = Some child /\ s' = s) \/
     (entries node !! name = None /\ r = None /\
      fcache s' = fcache s /\ root s' = root s) \/
     (entries node !! name = None /\ getType (file node) = DirectoryFile /\
      r = Some (length (fcache s)) /\ root s' = root s /\
      exists f, fcache s' = link_child (fcache s) f (root s) name)).
Proof.
  intros Hrun. apply lookupFile_entry_run in Hrun as (node & Hnode & Hcases).
  exists node. split; [exact Hnode|].
  destruct Hcases as [Hhit | [(Hfree & _ & -> & ->) | (Hfree & Hdir)]];
    [now left | right; left; auto |].
  right. destruct Hdir as (dir & e & s1 & ri & s2 & Hfile & Hentry & Hinode & Hend).
  apply getEntry_effect in Hentry as (_ & _ & Hr1 & Hfc1 & _).
  assert (Hframe : root s2 = root s /\ fcache s2 = fcache s).
  { destruct e as [ino|]; [|destruct Hinode as [_ ->]; auto].
    apply getInode_frame in Hinode as (_ & _ & Hr2 & Hfc2). split; congruence. }
  destruct Hframe as [Hr2 Hfc2].
  destruct ri as [inode|]; [|destruct Hend as [-> ->]; left; auto].
  destruct (type (obj inode)); [| |destruct Hend as [-> ->]; left; auto].
  all: destruct Hend as (f & _ & _ & -> & ->); right; simpl;
    rewrite Hfc2, Hr2, Hfile; repeat split; eauto.
Qed.

(** Where the body returns [ZERO] the tree is as it was and the current
    node has no child under the name. *)
Lemma lookupFile_entry_none (name : string) (c : nat) (s s' : LinnFileSystem) :
  lookupFile_entry name c s = Some (None, s') ->
  root s' = root s /\ fcache s' = fcache s /\
  exists node, fcache s' !! c = Some node /\ entries node !! name = None.
Proof.
  intros Hrun. apply lookupFile_entry_inv in Hrun as (node & Hnode & Hcases).
  destruct Hcases as [(child & _ & [=] & _) | [(Hfree & _ & Hfc & Hroot) | (_ & _ & [=] & _)]].
  split; [exact Hroot|]. split; [exact Hfc|]. exists node. now rewrite Hfc.
Qed.

(** Where the body returns [ZERO] the inode cache is as it was, or has
    one inode more: the one the directory entry names, which was to be
    had and is neither a directory nor a regular file. *)
Lemma lookupFile_entry_none_inodes (name : string) (c : nat) (s s' : LinnFileSystem) :
  lookupFile_entry name c s = Some (None, s') ->
  inodes s' = inodes s \/
  exists n p, inodes s !! n = None /\ inodes s' = <[n := p]> (inodes s) /\
              type (obj p) = OtherFile.
Proof.
  intros Hrun. apply lookupFile_entry_run in Hrun as (node & Hnode & Hcases).
  destruct Hcases as [(child & _ & [=] & _) | [(_ & _ & _ & ->) | (_ & Hdir)]];
    [now left|].
  destruct Hdir as (dir & e & s1 & ri & s2 & Hfile & Hentry & Hinode & Hend).
  apply getEntry_effect in Hentry as (_ & _ & _ & _ & Hi1 & _).
  destruct e as [ino|];
    [|destruct Hinode as [-> ->]; destruct Hend as [_ ->]; now left].
  destruct ri as [inode|].
  - destruct (type (obj inode)) eqn:Htype;
      [destruct Hend as (f & _ & _ & [=] & _) | destruct Hend as (f & _ & _ & [=] & _) |].
    destruct Hend as [_ ->].
    apply getInode_effect in Hinode as (_ & _ & _ & _ & _ & Hcache).
    destruct Hcache as [(Hi & _) | (p & [= <-] & Hmiss & _ & _ & _ & Hi)].
    + left. congruence.
    + right. exists ino, inode. rewrite <- Hi1. auto.
  - destruct Hend as [_ ->]. left.
    apply getInode_none_inodes in Hinode. congruence.
Qed.

(** A cached child is taken as it is, and nothing happens. *)
Lemma lookupFile_entry_hit (name : string) (c child : nat) (s : LinnFileSystem) :
  child_of (fcache s) c name = Some child ->
  lookupFile_entry name c s = Some (Some child, s).
Proof.
  unfold child_of, lookupFile_entry, deref, bind, ret.
  destruct (fcache s !! c) as [node|]; [|discriminate].
  now intros ->.
Qed.

(** At a node that does not wrap a directory and has no child under the
    name, the body returns [ZERO] and nothing happens. *)
Lemma lookupFile_entry_not_directory (name : string) (c : nat) (s : LinnFileSystem)
    (node : FileCache) :
  fcache s !! c = Some node ->
  entries node !! name = None ->
  getType (file node) <> DirectoryFile ->
  lookupFile_entry name c s = Some (None, s).
Proof.
  intros Hnode Hfree Hfile. unfold lookupFile_entry, deref, bind, ret.
  rewrite Hnode, Hfree. now destruct (file node).
Qed.

(** A node made for a component below a node other than the root is
    not linked where the loop looks for it: the current node has no
    child under the name afterwards, as it had none before. *)
Lemma lookupFile_entry_not_under_current
    (name : string) (c c' : nat) (s s' : LinnFileSystem) :
  lookupFile_entry name c s = Some (Some c', s') ->
  child_of (fcache s) c name = None ->
  c <> root s ->
  child_of (fcache s') c name = None.
Proof.
  intros Hrun Hmiss Hc. apply lookupFile_entry_inv in Hrun as (node & Hnode & Hcases).
  destruct Hcases as [(child & Hentry & _ & ->) | [(_ & [=] & _) | (Hfree & _ & _ & _ & f & ->)]];
    [exact Hmiss|].
  now rewrite (link_child_elsewhere _ _ _ _ _ _ _ Hnode Hc).
Qed.

(** The loop body keeps regular files without children.  A node is
    linked under the root, and the body makes one at a directory only:
    at the root, or at a node it came to from the root, which then has
    children. *)
Lemma lookupFile_entry_leaves (name : string) (c : nat) (s s' : LinnFileSystem)
    (r : option nat) :
  lookupFile_entry name c s = Some (r, s') ->
  files_are_leaves (fcache s) ->
  c = root s \/ root_is_directory s ->
  files_are_leaves (fcache s') /\
  forall c', r = Some c' -> c' = root s' \/ root_is_directory s'.
Proof.
  intros Hrun Hleaves Hc. apply lookupFile_entry_inv in Hrun as (node & Hnode & Hcases).
  destruct Hcases
    as [(child & Hentry & -> & ->) | [(_ & -> & -> & _) | (_ & Hdir & -> & Hroot & f & Hfc)]].
  - split; [exact Hleaves|]. intros c' _. right.
    destruct Hc as [-> | Hc]; [|exact Hc].
    exists node. split; [exact Hnode|].
    destruct (getType (file node)) eqn:Htype; [reflexivity | |];
      rewrite (Hleaves _ _ Hnode) in Hentry by (rewrite Htype; discriminate);
      now rewrite lookup_empty in Hentry.
  - split; [exact Hleaves | discriminate].
  - assert (Hrd : root_is_directory s).
    { destruct Hc as [-> | Hc]; [now exists node | exact Hc]. }
    destruct Hrd as (rn & Hrn & Hrdir). rewrite Hfc. split.
    + now apply link_child_leaves with rn.
    + intros c' _. right. unfold root_is_directory. rewrite Hroot, Hfc.
      eexists. unfold link_child.
      rewrite list_lookup_alter_eq, (lookup_app_l_Some _ _ _ _ Hrn). simpl.
      split; [reflexivity | exact Hrdir].
Qed.

(** One turn of the loop. *)
Lemma lookupFile_from_cons (name : string) (rest : list string) (c : nat)
    (s : LinnFileSystem) :
  lookupFile_from (name :: rest) c s =
    match lookupFile_entry name c s with
    | Some (Some c', s') => lookupFile_from rest c' s'
    | Some (None, s') => Some (None, s')
    | None => None
    end.
Proof.
  cbn [lookupFile_from]. unfold bind at 1.
  destruct (lookupFile_entry name c s) as [[[c'|] s']|]; reflexivity.
Qed.

(** Resolving [pre ++ post] is resolving [pre], then [post] from the
    node reached. *)
Lemma lookupFile_from_app (pre post : list string) :
  forall (c : nat) (s : LinnFileSystem),
  lookupFile_from (pre ++ post) c s =
    match lookupFile_from pre c s with
    | Some (Some c', s') => lookupFile_from post c' s'
    | Some (None, s') => Some (None, s')
    | None => None
    end.
Proof.
  induction pre as [|name pre IH]; intros c s; [reflexivity|].
  rewrite <- app_comm_cons, !lookupFile_from_cons.
  destruct (lookupFile_entry name c s) as [[[c'|] s']|]; [apply IH | reflexivity | reflexivity].
Qed.

(** The loop keeps regular files without children. *)
Lemma lookupFile_from_leaves (names : list string) :
  forall (c : nat) (s s' : LinnFileSystem) (r : option nat),
  lookupFile_from names c s = Some (r, s') ->
  files_are_leaves (fcache s) ->
  c = root s \/ root_is_directory s ->
  files_are_leaves (fcache s').
Proof.
  induction names as [|name rest IH]; intros c s s' r.
  - now intros [= _ <-].
  - rewrite lookupFile_from_cons.
    destruct (lookupFile_entry name c s) as [[[c1|] s1]|] eqn:Hentry; [| |discriminate].
    + intros Hrest Hleaves Hc.
      destruct (lookupFile_entry_leaves _ _ _ _ _ Hentry Hleaves Hc) as [Hleaves1 Hc1].
      apply IH in Hrest; auto.
    + intros [= _ <-] Hleaves Hc.
      now destruct (lookupFile_entry_leaves _ _ _ _ _ Hentry Hleaves Hc).
Qed.

(** A path the tree leads along is resolved without anything
    happening. *)
Lemma lookupFile_from_cached (pre post : list string) :
  forall (c c' : nat) (s : LinnFileSystem),
  cached (fcache s) c pre = Some c' ->
  lookupFile_from (pre ++ post) c s = lookupFile_from post c' s.
Proof.
  induction pre as [|name pre IH]; intros c c' s; simpl cached.
  - now intros [= ->].
  - destruct (child_of (fcache s) c name) as [child|] eqn:Hchild; [|discriminate].
    intros Hrest. rewrite <- app_comm_cons, lookupFile_from_cons.
    rewrite (lookupFile_entry_hit _ _ _ _ Hchild). now apply IH.
Qed.

(** Where the loop returns [ZERO]: at some component [name], after a
    prefix [pre] that was resolved to a node [c'], the body returned
    [ZERO]. *)
Lemma lookupFile_from_none (names : list string) :
  forall (c : nat) (s s' : LinnFileSystem),
  lookupFile_from names c s = Some (None, s') ->
  exists pre name post c' s1,
    names = pre ++ name :: post /\
    lookupFile_from pre c s = Some (Some c', s1) /\
    lookupFile_entry name c' s1 = Some (None, s').
Proof.
  induction names as [|name rest IH]; intros c s s'; [discriminate|].
  rewrite lookupFile_from_cons.
  destruct (lookupFile_entry name c s) as [[[c1|] s1]|] eqn:Hentry; [| |discriminate].
  - intros Hrest.
    apply IH in Hrest as (pre & nm & post & c' & s2 & -> & Hpre & Hfail).
    exists (name :: pre), nm, post, c', s2.
    split; [reflexivity|]. split; [|exact Hfail].
    now rewrite lookupFile_from_cons, Hentry.
  - intros [= <-]. exists [], name, rest, c, s. auto.
Qed.

(** C6.  A [getInode] call that returns [ZERO], for whichever reason,
    leaves the inode cache as it was.  A [lookupFile] call that returns
    [ZERO] stopped at some component [name] after resolving the
    components [pre] before it to a node [c]: the file cache tree is
    what resolving [pre] alone leaves, with no node made for [name] and
    no child under [name] at [c]; the inode cache is what resolving
    [pre] leaves, or has one inode more, the one the directory names for
    [name], of a type that is neither directory nor regular file. *)
Theorem failed_calls_and_the_caches :
  (forall (s s' : LinnFileSystem) (n : Z),
     getInode n s = Some (None, s') -> inodes s' = inodes s) /\
  (forall (s s' : LinnFileSystem) (path : list string),
     lookupFile path s = Some (None, s') ->
     exists pre name post c s1,
       path = pre ++ name :: post /\
       lookupFile pre s = Some (Some c, s1) /\
       fcache s' = fcache s1 /\
       child_of (fcache s') c name = None /\
       is_Some (fcache s' !! c) /\
       (inodes s' = inodes s1 \/
        exists n p, inodes s1 !! n = None /\ inodes s' = <[n := p]> (inodes s1) /\
                    type (obj p) = OtherFile)).
Proof.
  split.
  - intros s s' n Hrun. now apply getInode_none_inodes with n.
  - intros s s' path Hrun. unfold lookupFile, bind, get in Hrun |- *.
    apply lookupFile_from_none in Hrun
      as (pre & name & post & c & s1 & -> & Hpre & Hfail).
    exists pre, name, post, c, s1. split; [reflexivity|]. split; [exact Hpre|].
    pose proof (lookupFile_entry_none_inodes _ _ _ _ Hfail) as Hinodes.
    apply lookupFile_entry_none in Hfail as (_ & Hfc & node & Hnode & Hfree).
    split; [exact Hfc|]. unfold child_of. rewrite Hnode.
    split; [exact Hfree|]. split; [eauto | exact Hinodes].
Qed.

(** Where the components [pre] lead to a node that wraps no directory
    and has no child under [name], the call stops there. *)
Lemma lookupFile_stops_at_non_directory
    (s s1 : LinnFileSystem) (pre post : list string) (name : string)
    (c : nat) (node : FileCache) :
  lookupFile pre s = Some (Some c, s1) ->
  fcache s1 !! c = Some node ->
  entries node !! name = None ->
  getType (file node) <> DirectoryFile ->
  lookupFile (pre ++ name :: post) s = Some (None, s1).
Proof.
  intros Hpre Hnode Hfree Hfile. unfold lookupFile, bind, get in *.
  rewrite lookupFile_from_app, Hpre, lookupFile_from_cons.
  now rewrite (lookupFile_entry_not_directory name c s1 node).
Qed.

(** C8.  In a tree where regular files have no children, as every tree
    that grew from a mount is: when the components [pre] of a path lead
    to a node that does not wrap a directory, [lookupFile] for any longer
    path [pre ++ name :: post] returns [ZERO], and the state it leaves is
    the one resolving [pre] leaves: no directory entry is read, no inode
    is resolved, and no component after [name] is looked at. *)
Theorem lookupFile_through_non_directory
    (s s1 : LinnFileSystem) (pre post : list string) (name : string)
    (c : nat) (node : FileCache) :
  files_are_leaves (fcache s) ->
  lookupFile pre s = Some (Some c, s1) ->
  fcache s1 !! c = Some node ->
  getType (file node) <> DirectoryFile ->
  lookupFile (pre ++ name :: post) s = Some (None, s1).
Proof.
  intros Hleaves Hpre Hnode Hfile.
  apply lookupFile_stops_at_non_directory with c node; try assumption.
  assert (Hleaves1 : files_are_leaves (fcache s1)).
  { unfold lookupFile, bind, get in Hpre.
    apply lookupFile_from_leaves in Hpre; auto. }
  rewrite (Hleaves1 c node Hnode Hfile). apply lookup_empty.
Qed.

(** The tree a mount builds, a root directory on its own, has no
    regular file with children. *)
Lemma files_are_leaves_root (f : File) :
  getType f = DirectoryFile ->
  files_are_leaves [ {| file := f; entries := ∅ |} ].
Proof.
  intros Hdir c node Hc. apply list_lookup_singleton_Some in Hc as [_ <-].
  simpl. congruence.
Qed.

(** Requests keep regular files without children. *)
Lemma serve_all_leaves (qs : list request) :
  forall (s s' : LinnFileSystem),
  serve_all qs s = Some (tt, s') ->
  files_are_leaves (fcache s) ->
  files_are_leaves (fcache s').
Proof.
  induction qs as [|q qs IH]; intros s s'; simpl.
  - now intros [= <-].
  - unfold bind at 1. destruct (serve q s) as [[[] s1]|] eqn:Hq; [|discriminate].
    intros Hrest Hleaves. apply IH in Hrest; [assumption|].
    destruct q as [n | inode blk | path]; unfold serve, bind, ret in Hq.
    + destruct (getInode n s) as [[r s2]|] eqn:Hrun; [|discriminate].
      simplify_eq. apply getInode_frame in Hrun as (_ & _ & _ & ->). exact Hleaves.
    + destruct (getOffset inode blk s) as [[r s2]|] eqn:Hrun; [|discriminate].
      simplify_eq. apply getOffset_frame in Hrun as [_ ->]. exact Hleaves.
    + destruct (lookupFile path s) as [[r s2]|] eqn:Hrun; [|discriminate].
      simplify_eq. unfold lookupFile, bind, get in Hrun.
      apply lookupFile_from_leaves in Hrun; auto.
Qed.

End Lookup.

(** ** More on block address translation *)

Lemma wrap_divide (w b y : Z) : (b | 2 ^ w) -> (b | y) -> (b | wrap w y).
Proof.
  intros Hw Hy. unfold wrap.
  destruct (Z.eq_dec (2 ^ w) 0) as [Hz | Hnz].
  - rewrite Hz. now rewrite Z.mod_0_r.
  - rewrite Z.mod_eq by assumption.
    apply Z.divide_sub_r; [assumption|]. now apply Z.divide_mul_l.
Qed.

Section MoreOffsets.
Context `{Env}.

(** The loop and the statements after it change the device and the
    trace only; the events are reads of one block and slots of the
    pointer block, then the release of the block; with a turn to go, the
    first event is the read at the offset the loop was entered with. *)
Lemma getOffset_walk_shape (sb : LinnSuperBlock) (blk : Z) (d : nat) :
  forall (offset : Z) (buf : list Z) (s s' : LinnFileSystem) (r : Z),
  getOffset_walk sb blk d offset buf s = Some (r, s') ->
  super s' = super s /\ groups s' = groups s /\ inodes s' = inodes s /\
  root s' = root s /\ fcache s' = fcache s /\ nobj s' = nobj s /\
  exists mid,
    trace s' = trace s ++ mid ++ [EvDelete KBlock] /\
    Forall (is_walk_event (blockSize sb)) mid /\
    (d <> 0%nat -> exists res mid', mid = EvRead offset (blockSize sb) res :: mid').
Proof.
  induction d as [|d IH]; intros offset buf s s' r Hrun.
  - simpl in Hrun. unfold_getOffset.
    repeat case_match; simplify_eq/=. repeat split; auto.
    eexists [_]. split; [now rewrite <- app_assoc|].
    split; [repeat constructor | congruence].
  - cbn [getOffset_walk] in Hrun. unfold read, bind at 1 in Hrun.
    destruct (storage_read (storage s) offset (blockSize sb)) as [dev [res bytes]].
    cbn [fst snd] in Hrun. destruct (res <? 0).
    + unfold emit, bind, ret in Hrun. simplify_eq/=. repeat split; auto.
      exists [EvRead offset (blockSize sb) res]. split; [now rewrite <- app_assoc|].
      split; [repeat constructor | eauto].
    + destruct (u64 (u64 (blk - LINN_INODE_DIR_BLOCKS) + 1) =? 0); [discriminate|].
      unfold emit at 1, bind at 1 in Hrun.
      apply IH in Hrun as (Hsb & Hg & Hi & Hr & Hfc & Hn & mid & Ht & Hmid & _).
      simpl in *. repeat split; auto.
      eexists (EvRead offset (blockSize sb) res :: EvIndex _ :: mid).
      split; [rewrite Ht; simpl; now rewrite <- !app_assoc|].
      split; [repeat constructor; assumption | eauto].
Qed.

(** The depth is one, two or three. *)
Lemma getOffset_depth_positive (sb : LinnSuperBlock) (blk : Z) :
  getOffset_depth sb blk <> 0%nat.
Proof. unfold getOffset_depth. repeat case_match; discriminate. Qed.

Lemma getOffset_effect
    (inode : LinnInode) (blk : Z) (s s' : LinnFileSystem) (r : Z) :
  getOffset inode blk s = Some (r, s') ->
  super s' = super s /\ groups s' = groups s /\ inodes s' = inodes s /\
  root s' = root s /\ fcache s' = fcache s /\ nobj s' = nobj s /\
  exists evs, trace s' = trace s ++ evs.
Proof.
  unfold getOffset, bind, get, ret. destruct (blk <? LINN_INODE_DIR_BLOCKS).
  - intros [= _ <-]. repeat split. exists []. now rewrite app_nil_r.
  - unfold emit. intros Hrun.
    apply getOffset_walk_shape in Hrun as (Hsb & Hg & Hi & Hr & Hfc & Hn & mid & Ht & _).
    simpl in *. repeat split; auto.
    eexists. rewrite Ht, <- app_assoc. reflexivity.
Qed.

(** A translation changes nothing but the device and the trace: the
    superblock, the group table, the inode cache, the file cache tree
    and the allocation counter are what they were. *)
Theorem getOffset_changes_device_and_trace_only
    (inode : LinnInode) (blk : Z) (s s' : LinnFileSystem) (r : Z) :
  getOffset inode blk s = Some (r, s') ->
  super s' = super s /\ groups s' = groups s /\ inodes s' = inodes s /\
  root s' = root s /\ fcache s' = fcache s /\ nobj s' = nobj s /\
  exists evs, trace s' = trace s ++ evs.
Proof. apply getOffset_effect. Qed.

Lemma getOffset_grows (inode : LinnInode) (blk : Z) (s s' : LinnFileSystem) (r : Z) :
  getOffset inode blk s = Some (r, s') -> grows s s'.
Proof.
  intros Hrun.
  apply getOffset_effect in Hrun
    as (Hsb & Hg & Hi & Hr & Hfc & Hn & Ht).
  repeat split; auto; rewrite ?Hi, ?Hfc, ?Hn; try reflexivity.
  apply keeps_nodes_refl.
Qed.

(** Past the direct pointers, [getOffset] returns, and what it does is:
    allocate the pointer block; read one block at the inode's pointer
    for the depth; then only reads of one block each and slots of the
    pointer block; and, last, release the pointer block, on every path. *)
Theorem getOffset_trace_shape (inode : LinnInode) (blk : Z) (s : LinnFileSystem) :
  0 < LINN_INODE_DIR_BLOCKS ->
  LINN_INODE_DIR_BLOCKS <= blk < 2 ^ 64 ->
  0 < u64 (LINN_SUPER_NUM_PTRS (super s)) ->
  exists r s' res mid,
    getOffset inode blk s = Some (r, s') /\
    trace s' = trace s ++
      EvNew KBlock ::
      EvRead (u64 (inode_block inode
                     (LINN_INODE_DIR_BLOCKS + Z.of_nat (getOffset_depth (super s) blk) - 1)
                   * blockSize (super s)))
             (blockSize (super s)) res ::
      mid ++ [EvDelete KBlock] /\
    Forall (is_walk_event (blockSize (super s))) mid.
Proof.
  intros Hdir Hblk Hn.
  destruct (getOffset_outcome inode blk s Hdir Hblk Hn) as (r & s' & evs & Hrun & _).
  pose proof Hrun as Hwalk. rewrite getOffset_indirect in Hwalk by lia.
  apply getOffset_walk_shape in Hwalk as (_ & _ & _ & _ & _ & _ & mid & Ht & Hmid & Hfirst).
  destruct (Hfirst (getOffset_depth_positive _ _)) as (res & mid' & ->).
  exists r, s', res, mid'. split; [exact Hrun|]. split.
  - rewrite Ht. simpl. now rewrite <- app_assoc.
  - now inversion Hmid.
Qed.

(** With a block size that divides [2^64], the loop returns a multiple
    of the block size. *)
Lemma getOffset_walk_aligned (sb : LinnSuperBlock) (blk : Z) (d : nat) :
  (blockSize sb | 2 ^ 64) ->
  forall (offset : Z) (buf : list Z) (s s' : LinnFileSystem) (r : Z),
  getOffset_walk sb blk d offset buf s = Some (r, s') ->
  (blockSize sb | r).
Proof.
  intros Hbs. induction d as [|d IH]; intros offset buf s s' r Hrun.
  - simpl in Hrun. unfold_getOffset.
    repeat case_match; simplify_eq/=.
    apply wrap_divide; [assumption | apply Z.divide_factor_r].
  - cbn [getOffset_walk] in Hrun. unfold read, bind at 1 in Hrun.
    destruct (storage_read (storage s) offset (blockSize sb)) as [dev [res bytes]].
    cbn [fst snd] in Hrun. destruct (res <? 0).
    + unfold emit, bind, ret in Hrun. simplify_eq/=. apply Z.divide_0_r.
    + destruct (u64 (u64 (blk - LINN_INODE_DIR_BLOCKS) + 1) =? 0); [discriminate|].
      unfold emit at 1, bind at 1 in Hrun. now apply IH in Hrun.
Qed.

(** With a block size that divides [2^64] and the modulus of the
    product of the direct case, as every power of two up to them does,
    the offset [getOffset] returns is a multiple of the block size, on
    every path. *)
Theorem getOffset_block_aligned
    (inode : LinnInode) (blk : Z) (s s' : LinnFileSystem) (r : Z) :
  (blockSize (super s) | 2 ^ 64) ->
  (blockSize (super s) | 2 ^ pointer_bits) ->
  getOffset inode blk s = Some (r, s') ->
  (blockSize (super s) | r).
Proof.
  intros H64 Hptr. unfold getOffset, bind, get, ret.
  destruct (blk <? LINN_INODE_DIR_BLOCKS).
  - intros [= <- _]. apply wrap_divide; [assumption|].
    apply wrap_divide; [assumption | apply Z.divide_factor_r].
  - unfold emit. intros Hrun. now apply getOffset_walk_aligned in Hrun.
Qed.

(** The count the loop divides, for depth [d]: the fan-out squared
    [d - 1] times, reduced to a [Size] each time. *)
Theorem getOffset_remain_power (sb : LinnSuperBlock) (d : nat) :
  0 <= size_bits ->
  (1 <= d)%nat ->
  getOffset_remain sb d
  = (LINN_SUPER_NUM_PTRS sb ^ (2 ^ Z.of_nat (d - 1))) mod 2 ^ size_bits.
Proof.
  intros Hbits Hd. unfold getOffset_remain.
  assert (Hm : 2 ^ size_bits <> 0) by (apply Z.pow_nonzero; lia).
  induction (d - 1)%nat as [|j IH].
  - simpl. unfold Size, wrap. now rewrite Z.pow_1_r.
  - rewrite Nat.iter_succ, IH. unfold Size, wrap.
    rewrite <- Z.mul_mod by assumption.
    rewrite <- Z.pow_add_r by (apply Z.pow_nonneg; lia).
    f_equal. f_equal. rewrite Nat2Z.inj_succ, Z.pow_succ_r by lia. lia.
Qed.

(** A block of the single indirect range, when the read of the single
    indirect block does not fail. *)
Lemma getOffset_single (inode : LinnInode) (blk : Z) (s : LinnFileSystem)
    (dev : Storage) (res : Z) (bytes : list Byte.byte) :
  0 < LINN_INODE_DIR_BLOCKS ->
  LINN_INODE_DIR_BLOCKS <= blk < 2 ^ 64 ->
  blk - LINN_INODE_DIR_BLOCKS < u64 (LINN_SUPER_NUM_PTRS (super s)) ->
  storage_read (storage s)
    (u64 (inode_block inode LINN_INODE_DIR_BLOCKS * blockSize (super s)))
    (blockSize (super s)) = (dev, (res, bytes)) ->
  0 <= res ->
  let k := blk - LINN_INODE_DIR_BLOCKS in
  getOffset inode blk s =
    Some (u64 (block_at (as_u64s bytes) k * blockSize (super s)),
          with_trace
            (trace s ++
             [EvNew KBlock;
              EvRead (u64 (inode_block inode LINN_INODE_DIR_BLOCKS * blockSize (super s)))
                     (blockSize (super s)) res;
              EvIndex (u64 (Size (LINN_SUPER_NUM_PTRS (super s))) / (k + 1));
              EvIndex k;
              EvDelete KBlock])
            (with_storage dev s)).
Proof.
  intros Hdir Hblk Hk Hread Hres k.
  pose proof (u64_range (LINN_SUPER_NUM_PTRS (super s))) as Hn.
  assert (Hdepth : getOffset_depth (super s) blk = 1%nat).
  { unfold getOffset_depth. rewrite (u64_small (blk - LINN_INODE_DIR_BLOCKS)) by lia.
    now replace (blk - LINN_INODE_DIR_BLOCKS <? u64 (LINN_SUPER_NUM_PTRS (super s)))
      with true by (symmetry; apply Z.ltb_lt; lia). }
  assert (Hdiv : u64 (u64 (blk - LINN_INODE_DIR_BLOCKS) + 1) = k + 1).
  { rewrite (u64_small (blk - LINN_INODE_DIR_BLOCKS)) by lia. apply u64_small. lia. }
  rewrite getOffset_indirect by lia. rewrite Hdepth.
  replace (LINN_INODE_DIR_BLOCKS + Z.of_nat 1 - 1) with LINN_INODE_DIR_BLOCKS by lia.
  erewrite getOffset_walk_read_ok; [| exact Hread | exact Hres | rewrite Hdiv; lia].
  cbn [getOffset_walk]. unfold getOffset_final, emit, bind, ret.
  replace (u64 (LINN_SUPER_NUM_PTRS (super s)) =? 0) with false
    by (symmetry; apply Z.eqb_neq; lia).
  rewrite Hdiv, (u64_small (blk - LINN_INODE_DIR_BLOCKS)) by lia. fold k.
  rewrite (Z.mod_small k) by lia.
  unfold getOffset_remain. simpl. rewrite <- !app_assoc. reflexivity.
Qed.

(** Single indirect blocks are translated as they should be: for a
    block [k] past the direct pointers, [k] below the fan-out, when the
    read of the single indirect block does not fail (a read of nothing
    counts as one that did not), [getOffset] returns pointer [k] of that
    block times the block size, after this one read. *)
Theorem getOffset_single_indirect (inode : LinnInode) (blk : Z) (s : LinnFileSystem)
    (dev : Storage) (res : Z) (bytes : list Byte.byte) :
  0 < LINN_INODE_DIR_BLOCKS ->
  LINN_INODE_DIR_BLOCKS <= blk < 2 ^ 64 ->
  blk - LINN_INODE_DIR_BLOCKS < u64 (LINN_SUPER_NUM_PTRS (super s)) ->
  storage_read (storage s)
    (u64 (inode_block inode LINN_INODE_DIR_BLOCKS * blockSize (super s)))
    (blockSize (super s)) = (dev, (res, bytes)) ->
  0 <= res ->
  let k := blk - LINN_INODE_DIR_BLOCKS in
  exists s' evs,
    getOffset inode blk s
    = Some (u64 (block_at (as_u64s bytes) k * blockSize (super s)), s') /\
    storage s' = dev /\
    trace s' = trace s ++ evs /\
    reads evs =
      [EvRead (u64 (inode_block inode LINN_INODE_DIR_BLOCKS * blockSize (super s)))
              (blockSize (super s)) res] /\
    (k < Z.of_nat (length (as_u64s bytes)) ->
     block_at (as_u64s bytes) k = nth (Z.to_nat k) (as_u64s bytes) 0).
Proof.
  intros Hdir Hblk Hk Hread Hres k.
  eexists _, _. split; [apply getOffset_single; eassumption|].
  split; [reflexivity|]. split; [reflexivity|]. split; [reflexivity|].
  intros Hlen. unfold block_at.
  now replace (k <? Z.of_nat (length (as_u64s bytes))) with true
    by (symmetry; apply Z.ltb_lt; lia).
Qed.

(** The first single indirect block makes the loop read one element
    past the pointer block: with a block of [n] pointers, the slot read
    in the loop is [n / 1 = n], and what is read there is whatever lies
    behind the block; the offset returned does not depend on it. *)
Theorem getOffset_first_single_indirect_past_block
    (inode : LinnInode) (s : LinnFileSystem)
    (dev : Storage) (res : Z) (bytes : list Byte.byte) :
  let n := LINN_SUPER_NUM_PTRS (super s) in
  0 < LINN_INODE_DIR_BLOCKS < 2 ^ 64 ->
  0 < n < 2 ^ size_bits -> size_bits <= 64 ->
  Z.of_nat (length (as_u64s bytes)) = n ->
  storage_read (storage s)
    (u64 (inode_block inode LINN_INODE_DIR_BLOCKS * blockSize (super s)))
    (blockSize (super s)) = (dev, (res, bytes)) ->
  0 <= res ->
  exists r s' evs,
    getOffset inode LINN_INODE_DIR_BLOCKS s = Some (r, s') /\
    trace s' = trace s ++ evs /\
    slots evs = [n; 0] /\
    block_at (as_u64s bytes) n = beyond n /\
    r = u64 (nth 0 (as_u64s bytes) 0 * blockSize (super s)).
Proof.
  intros n Hdir Hn Hbits Hlen Hread Hres.
  assert (Hpow : 2 ^ size_bits <= 2 ^ 64) by (apply Z.pow_le_mono_r; lia).
  assert (Hu : u64 n = n) by (apply u64_small; lia).
  eexists _, _, _. split.
  { apply getOffset_single; try eassumption; try lia.
    fold n. rewrite Hu. lia. }
  split; [reflexivity|]. split.
  { simpl. fold n. unfold Size. rewrite (wrap_small size_bits n) by lia.
    rewrite Hu, Z.sub_diag. simpl. now rewrite Z.div_1_r. }
  split.
  - unfold block_at. now replace (n <? Z.of_nat (length (as_u64s bytes))) with false
      by (symmetry; apply Z.ltb_ge; lia).
  - rewrite Z.sub_diag. unfold block_at.
    now replace (0 <? Z.of_nat (length (as_u64s bytes))) with true
      by (symmetry; apply Z.ltb_lt; lia).
Qed.

End MoreOffsets.

(** ** More on the inode cache *)

Section MoreInodes.
Context `{Env}.

(** [getInode] returns, whatever the number, when a group holds inodes. *)
Lemma getInode_returns (n : Z) (s : LinnFileSystem) :
  inodesPerGroup (super s) <> 0 ->
  exists r s', getInode n s = Some (r, s').
Proof.
  intros Hipg. apply Z.eqb_neq in Hipg. unfold_getInode. simpl.
  destruct (inodesCount (super s) <=? n); [eauto|].
  destruct (inodes s !! n); [eauto|]. rewrite Hipg. simpl.
  destruct (Array_at (groups s) (group_of_inode (super s) n)) as [group|]; [|eauto].
  simpl.
  destruct (storage_read (storage s) (inode_offset (super s) group n) sizeof_LinnInode)
    as [dev [res bytes]].
  simpl. destruct (res <=? 0); eauto.
Qed.

(** Loading an inode.  On a cache miss with the group descriptor found,
    the call returns an inode exactly when the read reported a positive
    count; the object then holds the bytes read, at the next free
    address, and is cached under its number beside the entries there
    were.  When the read reported nothing or failed, [ZERO] is
    returned, the cache is as it was, and the inode buffer that was
    allocated is never released. *)
Theorem getInode_load (s : LinnFileSystem) (n : Z) (group : LinnGroup)
    (dev : Storage) (res : Z) (bytes : list Byte.byte) :
  n < inodesCount (super s) ->
  inodes s !! n = None ->
  inodesPerGroup (super s) <> 0 ->
  Array_at (groups s) (group_of_inode (super s) n) = Some group ->
  storage_read (storage s) (inode_offset (super s) group n) sizeof_LinnInode
    = (dev, (res, bytes)) ->
  let inode := {| addr := nobj s; obj := as_LinnInode bytes |} in
  exists s' evs,
    getInode n s = Some (if res <=? 0 then None else Some inode, s') /\
    storage s' = dev /\
    nobj s' = S (nobj s) /\
    inodes s' = (if res <=? 0 then inodes s else <[n := inode]> (inodes s)) /\
    trace s' = trace s ++ evs /\
    count_events is_new evs = (if res <=? 0 then 1%nat else 2%nat) /\
    count_events is_delete evs = 0%nat.
Proof.
  intros Hvalid Hmiss Hipg Hgroup Hread inode.
  apply Z.leb_gt in Hvalid. apply Z.eqb_neq in Hipg.
  unfold_getInode. rewrite Hvalid, Hmiss, Hipg. simpl. rewrite Hgroup. simpl.
  rewrite Hread. simpl. destruct (res <=? 0); simpl.
  - eexists _, _. do 4 (split; [reflexivity|]).
    split; [rewrite <- app_assoc; reflexivity|]. split; reflexivity.
  - eexists _, _. do 4 (split; [reflexivity|]).
    split; [rewrite <- !app_assoc; reflexivity|]. split; reflexivity.
Qed.

(** Where the group of an inode number lies.  For [n] from [1] up to
    the number of inodes the group table covers, [getGroupByInode]
    returns the descriptor at index [(n - 1) / inodesPerGroup]; past
    that it returns [ZERO]; the state is left as it is. *)
Theorem getGroupByInode_bounds (s : LinnFileSystem) (n : Z) :
  0 < inodesPerGroup (super s) ->
  1 <= n < 2 ^ 64 ->
  let ipg := inodesPerGroup (super s) in
  let count := Z.of_nat (length (groups s)) in
  (n <= ipg * count ->
   exists group,
     getGroupByInode n s = Some (Some group, s) /\
     groups s !! Z.to_nat ((n - 1) / ipg) = Some group) /\
  (ipg * count < n -> getGroupByInode n s = Some (None, s)).
Proof.
  intros Hipg Hn ipg count.
  assert (Hne : (inodesPerGroup (super s) =? 0) = false) by (apply Z.eqb_neq; lia).
  assert (Hg : group_of_inode (super s) n = (n - 1) / ipg).
  { unfold group_of_inode. now rewrite u64_small by lia. }
  unfold getGroupByInode, getGroup, bind, get, ret. rewrite Hne, Hg. unfold Array_at.
  split.
  - intros Hle.
    assert (Hlt : (n - 1) / ipg < count) by (apply Z.div_lt_upper_bound; lia).
    replace ((n - 1) / ipg <? Z.of_nat (length (groups s))) with true
      by (symmetry; apply Z.ltb_lt; exact Hlt).
    destruct (lookup_lt_is_Some_2 (groups s) (Z.to_nat ((n - 1) / ipg))) as [group Hgroup].
    { subst count. assert (0 <= (n - 1) / ipg) by (apply Z.div_pos; lia). lia. }
    exists group. now rewrite Hgroup.
  - intros Hgt.
    assert (Hge : count <= (n - 1) / ipg) by (apply Z.div_le_lower_bound; lia).
    now replace ((n - 1) / ipg <? Z.of_nat (length (groups s))) with false
      by (symmetry; apply Z.ltb_ge; exact Hge).
Qed.

(** Two inode numbers of one group are read from different offsets, less
    than [inodesPerGroup] bytes apart (when the offsets fit their
    types): their places in the table differ, but by less than a
    record's size whenever a record is larger than that distance. *)
Theorem inode_offsets_in_group (sb : LinnSuperBlock) (group : LinnGroup) (n1 n2 : Z) :
  0 < inodesPerGroup sb ->
  1 <= n1 < 2 ^ 64 -> 1 <= n2 < 2 ^ 64 ->
  n1 <> n2 ->
  group_of_inode sb n1 = group_of_inode sb n2 ->
  0 <= inodeTable group * blockSize sb < 2 ^ table_bits ->
  inodeTable group * blockSize sb + inodesPerGroup sb <= 2 ^ 64 ->
  inodeTable group * blockSize sb + inodesPerGroup sb <= 2 ^ size_bits ->
  inode_offset sb group n1 <> inode_offset sb group n2 /\
  Z.abs (inode_offset sb group n1 - inode_offset sb group n2) < inodesPerGroup sb.
Proof.
  intros Hipg Hn1 Hn2 Hne Hsame Hprod H64 Hsize.
  unfold group_of_inode in Hsame. rewrite !u64_small in Hsame by lia.
  pose proof (Z.mod_pos_bound n1 (inodesPerGroup sb) Hipg) as Hm1.
  pose proof (Z.mod_pos_bound n2 (inodesPerGroup sb) Hipg) as Hm2.
  assert (Hoff : forall n, 0 <= n mod inodesPerGroup sb < inodesPerGroup sb ->
            inode_offset sb group n = inodeTable group * blockSize sb + n mod inodesPerGroup sb).
  { intros n Hm. unfold inode_offset, Size, u64.
    rewrite (wrap_small table_bits) by assumption.
    rewrite (wrap_small 64) by lia. apply wrap_small. lia. }
  rewrite !Hoff by assumption.
  assert (Hdiff : n1 mod inodesPerGroup sb <> n2 mod inodesPerGroup sb).
  { intros Heq.
    pose proof (Z.div_mod (n1 - 1) (inodesPerGroup sb) ltac:(lia)) as Hd1.
    pose proof (Z.div_mod (n2 - 1) (inodesPerGroup sb) ltac:(lia)) as Hd2.
    pose proof (Z.mod_pos_bound (n1 - 1) (inodesPerGroup sb) Hipg) as Hb1.
    pose proof (Z.mod_pos_bound (n2 - 1) (inodesPerGroup sb) Hipg) as Hb2.
    pose proof (Z.div_mod n1 (inodesPerGroup sb) ltac:(lia)) as He1.
    pose proof (Z.div_mod n2 (inodesPerGroup sb) ltac:(lia)) as He2.
    rewrite Hsame in Hd1. rewrite Heq in He1.
    assert (Hmul : inodesPerGroup sb * (n1 / inodesPerGroup sb - n2 / inodesPerGroup sb)
                   = n1 - n2) by lia.
    assert (Habs : Z.abs (n1 - n2) < inodesPerGroup sb) by lia.
    assert (n1 / inodesPerGroup sb - n2 / inodesPerGroup sb = 0) by nia.
    nia. }
  split; lia.
Qed.

End MoreInodes.

(** ** More on the file cache tree *)

Section MoreTree.

(** The links of the tree after a child was linked: those there were,
    and the new one. *)
Lemma link_child_inv (h : list FileCache) (f : File) (parent : nat)
    (name : string) (node : FileCache) (c : nat) (nm : string) (child : nat) :
  h !! parent = Some node ->
  child_of (link_child h f parent name) c nm = Some child ->
  child_of h c nm = Some child \/ (c = parent /\ nm = name /\ child = length h).
Proof.
  intros Hparent. unfold child_of, link_child.
  destruct (decide (parent = c)) as [<-|Hne].
  - rewrite list_lookup_alter_eq, (lookup_app_l_Some _ _ _ _ Hparent), Hparent. simpl.
    rewrite lookup_insert. case_decide; [intros [= <-]; right; auto | auto].
  - rewrite list_lookup_alter_ne by assumption.
    destruct ((h ++ [{| file := f; entries := ∅ |}]) !! c) as [nd|] eqn:Hc; [|discriminate].
    apply lookup_snoc_Some in Hc as [[_ Hc] | [_ <-]].
    + rewrite Hc. auto.
    + simpl. now rewrite lookup_empty.
Qed.

Lemma link_child_closed (root : nat) (h : list FileCache) (f : File) (parent : nat)
    (name : string) (node : FileCache) :
  h !! parent = Some node ->
  tree_closed root h ->
  tree_closed root (link_child h f parent name).
Proof.
  intros Hparent [Hroot Hlinks]. split; rewrite link_child_length; [lia|].
  intros c nm child Hchild.
  apply (link_child_inv _ _ _ _ _ _ _ _ Hparent) in Hchild as [Hold | (_ & _ & ->)];
    [apply Hlinks in Hold|]; lia.
Qed.

Lemma link_child_shaped (root : nat) (h : list FileCache) (f : File) (parent : nat)
    (name : string) (node : FileCache) :
  h !! parent = Some node ->
  tree_closed root h ->
  tree_shaped root h ->
  tree_shaped root (link_child h f parent name).
Proof.
  intros Hparent [Hroot Hlinks] [Hnoroot Hone]. split.
  - intros c nm Hchild.
    apply (link_child_inv _ _ _ _ _ _ _ _ Hparent) in Hchild as [Hold | (_ & _ & Heq)];
      [now apply Hnoroot in Hold | lia].
  - intros c1 nm1 c2 nm2 child H1 H2.
    apply (link_child_inv _ _ _ _ _ _ _ _ Hparent) in H1 as [H1 | (-> & -> & ->)];
      apply (link_child_inv _ _ _ _ _ _ _ _ Hparent) in H2 as [H2 | (-> & -> & Heq)].
    + now apply Hone with child.
    + apply Hlinks in H1. lia.
    + apply Hlinks in H2. lia.
    + auto.
Qed.

End MoreTree.

Section MoreLookup.
Context `{Env}.

(** The state after [dir->getEntry] returned. *)
Lemma getEntry_grows (dir : LinnInodePtr) (name : string) (s s' : LinnFileSystem)
    (e : option Z) :
  getEntry dir name s = Some (e, s') ->
  grows s s' /\ inodes s' = inodes s /\ nobj s' = nobj s /\ fcache s' = fcache s /\
  trace s' = trace s ++ [EvGetEntry (addr dir) name].
Proof.
  intros Hrun.
  apply getEntry_effect in Hrun as (Hsb & Hg & Hr & Hfc & Hi & Hn & Ht).
  repeat split; auto; rewrite ?Hi, ?Hfc, ?Hn; try reflexivity.
  - apply keeps_nodes_refl.
  - eauto.
Qed.

(** The state after a node was made for [name]. *)
Lemma insert_grows (s : LinnFileSystem) (name : string) (f : File) (evs : list event) :
  grows s (with_trace (trace s ++ evs)
             (with_fcache (link_child (fcache s) f (root s) name) s)).
Proof.
  repeat split; simpl; try reflexivity; try lia.
  - apply link_child_keeps_nodes.
  - rewrite link_child_length. lia.
  - eauto.
Qed.

Section Invariant.

(** A property of the state that every step of a request keeps is kept
    by the requests. *)
Variable P : LinnFileSystem -> Prop.

Hypothesis P_getEntry :
  forall dir name s e s', getEntry dir name s = Some (e, s') -> P s -> P s'.
Hypothesis P_getInode :
  forall n s r s', getInode n s = Some (r, s') -> P s -> P s'.
Hypothesis P_getOffset :
  forall inode blk s r s', getOffset inode blk s = Some (r, s') -> P s -> P s'.
Hypothesis P_insert :
  forall s name f evs n,
    getType f = type (obj (file_inode f)) ->
    inodes s !! n = Some (file_inode f) ->
    P s ->
    P (with_trace (trace s ++ evs)
         (with_fcache (link_child (fcache s) f (root s) name) s)).

Lemma lookupFile_entry_keeps (name : string) (c : nat) (s s' : LinnFileSystem)
    (r : option nat) :
  lookupFile_entry name c s = Some (r, s') -> P s -> P s'.
Proof.
  intros Hrun HP.
  apply lookupFile_entry_run in Hrun as (node & Hnode & Hcases).
  destruct Hcases as [(child & _ & _ & ->) | [(_ & _ & _ & ->) | (Hfree & Hdir)]];
    [assumption | assumption |].
  destruct Hdir as (dir & e & s1 & ri & s2 & Hfile & Hentry & Hinode & Hend).
  pose proof (P_getEntry _ _ _ _ _ Hentry HP) as HP1.
  destruct e as [ino|]; [|destruct Hinode as [-> ->]; now destruct Hend as [_ ->]].
  pose proof (P_getInode _ _ _ _ Hinode HP1) as HP2.
  destruct ri as [inode|]; [|now destruct Hend as [_ ->]].
  pose proof (getInode_some_cached _ _ _ _ Hinode) as [Hcached _].
  destruct (type (obj inode)) eqn:Htype.
  - destruct Hend as (f & Hf & Hfi & _ & ->).
    apply P_insert with ino; auto; rewrite Hfi; congruence.
  - destruct Hend as (f & Hf & Hfi & _ & ->).
    apply P_insert with ino; auto; rewrite Hfi; congruence.
  - now destruct Hend as [_ ->].
Qed.

Lemma lookupFile_from_keeps (names : list string) :
  forall (c : nat) (s s' : LinnFileSystem) (r : option nat),
  lookupFile_from names c s = Some (r, s') -> P s -> P s'.
Proof.
  induction names as [|name rest IH]; intros c s s' r.
  - now intros [= _ <-].
  - rewrite lookupFile_from_cons.
    destruct (lookupFile_entry name c s) as [[[c1|] s1]|] eqn:Hentry; [| |discriminate].
    + intros Hrest HP. apply IH in Hrest; [assumption|].
      eapply lookupFile_entry_keeps; eauto.
    + intros [= _ <-] HP. eapply lookupFile_entry_keeps; eauto.
Qed.

Lemma serve_all_keeps (qs : list request) :
  forall (s s' : LinnFileSystem),
  serve_all qs s = Some (tt, s') -> P s -> P s'.
Proof.
  induction qs as [|q qs IH]; intros s s'; simpl.
  - now intros [= <-].
  - unfold bind at 1. destruct (serve q s) as [[[] s1]|] eqn:Hq; [|discriminate].
    intros Hrest HP. apply IH in Hrest; [assumption|].
    destruct q as [n | inode blk | path]; unfold serve, bind, ret in Hq.
    + destruct (getInode n s) as [[r s2]|] eqn:Hrun; [|discriminate].
      simplify_eq. eapply P_getInode; eauto.
    + destruct (getOffset inode blk s) as [[r s2]|] eqn:Hrun; [|discriminate].
      simplify_eq. eapply P_getOffset; eauto.
    + destruct (lookupFile path s) as [[r s2]|] eqn:Hrun; [|discriminate].
      simplify_eq. unfold lookupFile, bind, get in Hrun.
      eapply lookupFile_from_keeps; eauto.
Qed.

End Invariant.

Lemma serve_all_grows (qs : list request) (s s' : LinnFileSystem) :
  serve_all qs s = Some (tt, s') -> grows s s'.
Proof.
  intros Hrun. apply (serve_all_keeps (grows s)) with qs s; [| | | | exact Hrun | apply grows_refl].
  - intros dir name s1 e s2 Hentry Hg.
    apply grows_trans with s1; [exact Hg | now apply getEntry_grows in Hentry].
  - intros n s1 r s2 Hinode Hg.
    apply grows_trans with s1; [exact Hg | now apply getInode_grows in Hinode].
  - intros inode blk s1 r s2 Hoffset Hg.
    apply grows_trans with s1; [exact Hg | now apply getOffset_grows in Hoffset].
  - intros s1 name f evs n _ _ Hg.
    apply grows_trans with s1; [exact Hg | apply insert_grows].
Qed.

(** No request forgets: after any requests the superblock, the group
    table and the root are the same, every inode that was cached still
    is, with the same pointer, every [FileCache] is still at its
    address, around the same [File], and the trace continues the one
    there was. *)
Theorem requests_never_forget (qs : list request) (s s' : LinnFileSystem) :
  serve_all qs s = Some (tt, s') ->
  super s' = super s /\ groups s' = groups s /\ root s' = root s /\
  (forall n p, inodes s !! n = Some p -> inodes s' !! n = Some p) /\
  (forall c node, fcache s !! c = Some node ->
     exists node', fcache s' !! c = Some node' /\ file node' = file node) /\
  exists evs, trace s' = trace s ++ evs.
Proof.
  intros Hrun.
  apply serve_all_grows in Hrun as (Hsb & Hg & Hr & Hsub & _ & Hkeep & _ & Ht).
  repeat split; auto.
  intros n p Hn. now apply (lookup_weaken (inodes s)).
Qed.

(** An inode pointer, once returned, is the answer for good: after any
    further requests, [getInode] for the same number returns the same
    pointer and leaves the state as it found it. *)
Theorem getInode_stable_across_requests
    (s s1 s2 : LinnFileSystem) (n : Z) (p : LinnInodePtr) (qs : list request) :
  getInode n s = Some (Some p, s1) ->
  serve_all qs s1 = Some (tt, s2) ->
  getInode n s2 = Some (Some p, s2).
Proof.
  intros Hfirst Hlater.
  apply getInode_some_cached in Hfirst as [Hcached Hvalid].
  apply serve_all_grows in Hlater as (Hsb & _ & _ & Hsub & _).
  apply getInode_hit; [now rewrite Hsb|].
  now apply (lookup_weaken (inodes s1)).
Qed.

Lemma serve_all_inodes_ok (qs : list request) (s s' : LinnFileSystem) :
  inodes_ok s ->
  serve_all qs s = Some (tt, s') ->
  inodes_ok s'.
Proof.
  intros Hok Hrun.
  apply (serve_all_keeps inodes_ok) with qs s; [| | | | exact Hrun | exact Hok].
  - intros dir name s1 e s2 Hentry.
    apply getEntry_grows in Hentry as ((Hsb & _) & Hi & Hn & _).
    unfold inodes_ok. now rewrite Hi, Hn, Hsb.
  - intros n s1 r s2 Hinode. now apply getInode_inodes_ok with n r.
  - intros inode blk s1 r s2 Hoffset.
    apply getOffset_effect in Hoffset
      as (Hsb & _ & Hi & _ & _ & Hn & _).
    unfold inodes_ok. now rewrite Hi, Hn, Hsb.
  - intros s1 name f evs n _ _ Hinv. exact Hinv.
Qed.

(** The inode cache stays in order through any requests: it holds only
    numbers below the inode count, every cached object has an address
    that was given out, and no two inode numbers share an object. *)
Theorem requests_keep_inodes_ok (qs : list request) (s s' : LinnFileSystem) :
  inodes_ok s ->
  serve_all qs s = Some (tt, s') ->
  inodes_ok s'.
Proof. apply serve_all_inodes_ok. Qed.

(** Requests keep the tree closed and tree shaped. *)
Lemma serve_all_tree (qs : list request) (s s' : LinnFileSystem) :
  tree_closed (root s) (fcache s) ->
  tree_shaped (root s) (fcache s) ->
  serve_all qs s = Some (tt, s') ->
  tree_closed (root s') (fcache s') /\ tree_shaped (root s') (fcache s').
Proof.
  intros Hclosed Hshaped Hrun.
  apply (serve_all_keeps
           (fun st => tree_closed (root st) (fcache st) /\ tree_shaped (root st) (fcache st)))
    with qs s; [| | | | exact Hrun | now split].
  - intros dir name s1 e s2 Hentry.
    apply getEntry_grows in Hentry as ((_ & _ & Hr & _) & _ & _ & Hfc & _).
    now rewrite Hr, Hfc.
  - intros n s1 r s2 Hinode.
    apply getInode_frame in Hinode as (_ & _ & Hr & Hfc). now rewrite Hr, Hfc.
  - intros inode blk s1 r s2 Hoffset.
    apply getOffset_frame in Hoffset as (Hr & Hfc). now rewrite Hr, Hfc.
  - intros s1 name f evs n _ _ [Hc Hs]. simpl.
    destruct (lookup_lt_is_Some_2 _ _ (proj1 Hc)) as [rn Hrn]. split.
    + now apply link_child_closed with rn.
    + now apply link_child_shaped with rn.
Qed.


(** The node the loop body moves to is one of the tree. *)
Lemma lookupFile_entry_in_tree (name : string) (c c1 : nat) (s s1 : LinnFileSystem) :
  tree_closed (root s) (fcache s) ->
  lookupFile_entry name c s = Some (Some c1, s1) ->
  (c1 < length (fcache s1))%nat.
Proof.
  intros [_ Hlinks] Hrun. apply lookupFile_entry_inv in Hrun as (node & Hnode & Hcases).
  destruct Hcases
    as [(child & Hentry & [= ->] & ->) | [(_ & [=] & _) | (_ & _ & [= ->] & _ & f & ->)]].
  - apply (Hlinks c name). unfold child_of. now rewrite Hnode.
  - rewrite link_child_length. lia.
Qed.

(** The loop returns from every node of a closed tree. *)
Lemma lookupFile_from_returns (names : list string) :
  forall (c : nat) (s : LinnFileSystem),
  tree_closed (root s) (fcache s) ->
  inodesPerGroup (super s) <> 0 ->
  (c < length (fcache s))%nat ->
  exists r s',
    lookupFile_from names c s = Some (r, s') /\
    tree_closed (root s') (fcache s') /\
    forall c', r = Some c' -> (c' < length (fcache s'))%nat.
Proof.
  induction names as [|name rest IH]; intros c s Hclosed Hipg Hc.
  - exists (Some c), s. split; [reflexivity|]. split; [exact Hclosed|].
    now intros c' [= <-].
  - rewrite lookupFile_from_cons.
    assert (Hentry : exists r1 s1, lookupFile_entry name c s = Some (r1, s1)).
    { unfold lookupFile_entry, deref. unfold bind at 1.
      destruct (lookup_lt_is_Some_2 _ _ Hc) as [node ->].
      destruct (entries node !! name); [unfold ret; eauto|].
      destruct (file node) as [dir|reg]; [|unfold ret; eauto].
      unfold getEntry, bind at 1.
      destruct (dir_getEntry (storage s) dir name) as [d [ino|]]; [|unfold ret; eauto].
      unfold bind at 1.
      match goal with
      | |- context [getInode ino ?st] =>
          destruct (getInode_returns ino st Hipg) as (ri & s2 & ->)
      end.
      destruct ri as [inode|]; [|unfold ret; eauto].
      destruct (type (obj inode)); unfold emit, insertFileCache, bind, ret; eauto. }
    destruct Hentry as (r1 & s1 & Hentry). rewrite Hentry.
    assert (Hkeep : tree_closed (root s1) (fcache s1) /\
                    inodesPerGroup (super s1) <> 0).
    { apply (lookupFile_entry_keeps
               (fun st => tree_closed (root st) (fcache st) /\
                          inodesPerGroup (super st) <> 0))
        with name c s r1; [| | | exact Hentry | now split].
      - intros dir nm s2 e s3 He.
        apply getEntry_grows in He as ((Hsb & _ & Hr & _) & _ & _ & Hfc & _).
        now rewrite Hr, Hfc, Hsb.
      - intros n s2 r s3 Hinode.
        apply getInode_frame in Hinode as (Hsb & _ & Hr & Hfc). now rewrite Hr, Hfc, Hsb.
      - intros s2 nm f evs n _ _ [Hcl Hne]. simpl.
        destruct (lookup_lt_is_Some_2 _ _ (proj1 Hcl)) as [rn Hrn].
        split; [now apply link_child_closed with rn | exact Hne]. }
    destruct Hkeep as [Hclosed1 Hipg1].
    destruct r1 as [c1|].
    + apply IH; [exact Hclosed1 | exact Hipg1 |].
      now apply lookupFile_entry_in_tree with name c s.
    + exists None, s1. split; [reflexivity|]. split; [exact Hclosed1 | discriminate].
Qed.

(** In a tree whose links lead to nodes [lookupFile] never follows a
    dangling pointer: it returns, for every path, when a group holds
    inodes; the tree it leaves is closed again; and the node it returns
    is one of the tree. *)
Theorem lookupFile_returns_in_closed_tree (s : LinnFileSystem) (path : list string) :
  tree_closed (root s) (fcache s) ->
  inodesPerGroup (super s) <> 0 ->
  exists r s',
    lookupFile path s = Some (r, s') /\
    tree_closed (root s') (fcache s') /\
    forall c, r = Some c -> is_Some (fcache s' !! c).
Proof.
  intros Hclosed Hipg. unfold lookupFile, bind, get.
  destruct (lookupFile_from_returns path (root s) s Hclosed Hipg)
    as (r & s' & Hrun & Hclosed' & Hres); [apply Hclosed|].
  exists r, s'. split; [exact Hrun|]. split; [exact Hclosed'|].
  intros c Hc. apply lookup_lt_is_Some_2. now apply Hres.
Qed.

Lemma serve_all_wrappers (qs : list request) (s s' : LinnFileSystem) :
  wrappers_match s ->
  serve_all qs s = Some (tt, s') ->
  wrappers_match s'.
Proof.
  intros Hok Hrun.
  apply (serve_all_keeps wrappers_match) with qs s; [| | | | exact Hrun | exact Hok].
  - intros dir name s1 e s2 Hentry.
    apply getEntry_grows in Hentry as ((_ & _ & Hr & _) & Hi & _ & Hfc & _).
    unfold wrappers_match. now rewrite Hi, Hr, Hfc.
  - intros n s1 r s2 Hinode Hinv c node Hnode Hc.
    pose proof (getInode_grows _ _ _ _ Hinode) as (_ & _ & _ & Hsub & _).
    apply getInode_frame in Hinode as (_ & _ & Hr & Hfc).
    rewrite Hfc in Hnode. rewrite Hr in Hc.
    destruct (Hinv c node Hnode Hc) as [Htype [m Hm]].
    split; [exact Htype|]. exists m. now apply (lookup_weaken (inodes s1)).
  - intros inode blk s1 r s2 Hoffset.
    apply getOffset_effect in Hoffset
      as (_ & _ & Hi & Hr & Hfc & _).
    unfold wrappers_match. now rewrite Hi, Hr, Hfc.
  - intros s1 name f evs n Hf Hn Hinv i nd. simpl.
    unfold link_child. destruct (decide (root s1 = i)) as [<-|Hne].
    + intros _ Hc. now destruct Hc.
    + rewrite list_lookup_alter_ne by assumption.
      intros Hi Hc. apply lookup_snoc_Some in Hi as [[_ Hi] | [_ <-]].
      * now apply (Hinv i nd).
      * simpl. split; [exact Hf | now exists n].
Qed.

(** The class of every node but the root goes with the type of its
    inode, and the inode is a cached one; requests keep it so. *)
Theorem requests_keep_wrappers (qs : list request) (s s' : LinnFileSystem) :
  wrappers_match s ->
  serve_all qs s = Some (tt, s') ->
  wrappers_match s'.
Proof. apply serve_all_wrappers. Qed.

(** What one turn of the loop costs. *)
Lemma lookupFile_entry_cost (name : string) (c : nat) (s s' : LinnFileSystem)
    (r : option nat) :
  lookupFile_entry name c s = Some (r, s') ->
  exists evs,
    trace s' = trace s ++ evs /\
    (count_events is_getEntry evs <= 1)%nat /\
    (length (reads evs) <= count_events is_getEntry evs)%nat /\
    (count_events is_new_FileCache evs <= count_events is_getEntry evs)%nat /\
    length (fcache s') = (length (fcache s) + count_events is_new_FileCache evs)%nat.
Proof.
  intros Hrun.
  apply lookupFile_entry_run in Hrun as (node & Hnode & Hcases).
  destruct Hcases as [(child & _ & _ & ->) | [(_ & _ & _ & ->) | (Hfree & Hdir)]].
  1, 2: exists []; rewrite app_nil_r; simpl; repeat split; lia.
  destruct Hdir as (dir & e & s1 & ri & s2 & Hfile & Hentry & Hinode & Hend).
  apply getEntry_grows in Hentry as (_ & _ & _ & Hfc1 & Ht1).
  assert (Hmid : exists evs2,
            trace s2 = trace s1 ++ evs2 /\ (length (reads evs2) <= 1)%nat /\
            count_events is_getEntry evs2 = 0%nat /\
            count_events is_new_FileCache evs2 = 0%nat /\ fcache s2 = fcache s1).
  { destruct e as [ino|].
    - apply getInode_effect in Hinode as (_ & _ & _ & Hfc & (evs2 & H2) & _).
      exists evs2. tauto.
    - destruct Hinode as [_ ->]. exists []. rewrite app_nil_r. simpl. repeat split; lia. }
  destruct Hmid as (evs2 & Ht2 & Hreads & Hge & Hnew & Hfc2).
  assert (Hstay : r = None /\ s' = s2 ->
            exists evs,
              trace s' = trace s ++ evs /\
              (count_events is_getEntry evs <= 1)%nat /\
              (length (reads evs) <= count_events is_getEntry evs)%nat /\
              (count_events is_new_FileCache evs <= count_events is_getEntry evs)%nat /\
              length (fcache s') = (length (fcache s) + count_events is_new_FileCache evs)%nat).
  { intros [_ ->]. exists (EvGetEntry (addr dir) name :: evs2).
    split; [rewrite Ht2, Ht1; now rewrite <- app_assoc|].
    simpl. rewrite Hge, Hnew, Hfc2, Hfc1. repeat split; lia. }
  destruct ri as [inode|]; [|now apply Hstay].
  destruct (type (obj inode)); [| |now apply Hstay].
  all: destruct Hend as (f & _ & _ & _ & ->);
    exists (EvGetEntry (addr dir) name :: evs2 ++ [EvNew KFile; EvNew KFileCache]);
    simpl; rewrite link_child_length, Hfc2, Hfc1, reads_app, !count_events_app, Hge, Hnew;
    simpl; rewrite length_app; simpl;
    (split; [rewrite Ht2, Ht1, <- !app_assoc; reflexivity|]); repeat split; lia.
Qed.

(** What a lookup costs.  [lookupFile] asks a directory for an entry at
    most once for each component of the path, reads at most one inode
    for each entry it asked for, and makes at most one node for each;
    the tree has grown by exactly the nodes made. *)
Theorem lookupFile_cost (s s' : LinnFileSystem) (path : list string) (r : option nat) :
  lookupFile path s = Some (r, s') ->
  exists evs,
    trace s' = trace s ++ evs /\
    (count_events is_getEntry evs <= length path)%nat /\
    (length (reads evs) <= count_events is_getEntry evs)%nat /\
    (count_events is_new_FileCache evs <= count_events is_getEntry evs)%nat /\
    length (fcache s') = (length (fcache s) + count_events is_new_FileCache evs)%nat.
Proof.
  unfold lookupFile, bind, get. generalize (root s) as c. revert s.
  induction path as [|name rest IH]; intros s c.
  - intros [= _ <-]. exists []. rewrite app_nil_r. simpl. repeat split; lia.
  - rewrite lookupFile_from_cons.
    destruct (lookupFile_entry name c s) as [[[c1|] s1]|] eqn:Hentry; [| |discriminate];
      apply lookupFile_entry_cost in Hentry as (evs1 & Ht1 & Hg1 & Hr1 & Hn1 & Hl1).
    + intros Hrest. apply IH in Hrest as (evs2 & Ht2 & Hg2 & Hr2 & Hn2 & Hl2).
      exists (evs1 ++ evs2). rewrite reads_app, length_app, !count_events_app.
      split; [rewrite Ht2, Ht1; now rewrite app_assoc|]. simpl. repeat split; lia.
    + intros [= _ <-]. exists evs1. simpl. repeat split; auto; lia.
Qed.

End MoreLookup.

(** ** A root on its own *)

Section RootAlone.
Context `{Env}.

(** The tree of a root without children is closed and tree shaped. *)
Lemma root_alone_tree (node : FileCache) :
  entries node = ∅ ->
  tree_closed 0 [node] /\ tree_shaped 0 [node].
Proof.
  intros Hempty.
  assert (Hnone : forall c name, child_of [node] c name = None).
  { intros c name. unfold child_of.
    destruct c as [|c]; simpl; [rewrite Hempty; apply lookup_empty | reflexivity]. }
  split; [split; [simpl; lia|] | split].
  - intros c name child. now rewrite Hnone.
  - intros c name. now rewrite Hnone.
  - intros c1 n1 c2 n2 child. now rewrite Hnone.
Qed.

(** With the root as the only node, there is no other node to wrap
    anything. *)
Lemma root_alone_wrappers (s : LinnFileSystem) (node : FileCache) :
  root s = 0%nat -> fcache s = [node] -> wrappers_match s.
Proof.
  intros Hr Hfc c nd Hnode Hc. rewrite Hfc in Hnode. rewrite Hr in Hc.
  apply list_lookup_singleton_Some in Hnode as [-> _]. congruence.
Qed.

(** A cache of one inode is in order. *)
Lemma one_inode_ok (s : LinnFileSystem) (n : Z) (p : LinnInodePtr) :
  inodes s = {[ n := p ]} ->
  n < inodesCount (super s) ->
  (addr p < nobj s)%nat ->
  inodes_ok s.
Proof.
  intros Hi Hvalid Hfresh. unfold inodes_ok. rewrite Hi. repeat split.
  - intros m q Hq. now apply lookup_singleton_Some in Hq as [<- _].
  - intros m q Hq. now apply lookup_singleton_Some in Hq as [_ <-].
  - intros n1 n2 q1 q2 H1 H2 _.
    apply lookup_singleton_Some in H1 as [<- _].
    now apply lookup_singleton_Some in H2 as [<- _].
Qed.

End RootAlone.

(** ** Mounting *)

Section MoreMount.
Context `{MountEnv}.

Lemma group_reads_app (sb : LinnSuperBlock) (rs1 rs2 : list Z) :
  forall i,
  group_reads sb i (rs1 ++ rs2)
  = group_reads sb i rs1 ++ group_reads sb (i + Z.of_nat (length rs1)) rs2.
Proof.
  induction rs1 as [|res rs1 IH]; intros i; simpl.
  - now rewrite Z.add_0_r.
  - rewrite IH. do 3 f_equal. lia.
Qed.

(** The loop over the group descriptors: it ends in an exit after a
    read that reported nothing or failed, all reads before it having
    reported something; or it has read every descriptor. *)
Lemma read_groups_run (sb : LinnSuperBlock) (todo : nat) :
  forall (i : Z) (d : Storage) (t : list event) (acc : list LinnGroup),
  match read_groups sb todo i d t acc with
  | inl t' =>
    exists rs res,
      (length rs < todo)%nat /\ Forall (fun r => 0 < r) rs /\ res <= 0 /\
      t' = t ++ group_reads sb i rs ++
           [EvRead (group_offset sb (i + Z.of_nat (length rs))) sizeof_LinnGroup res]
  | inr (d', t', gs) =>
    exists rs,
      length rs = todo /\ Forall (fun r => 0 < r) rs /\
      t' = t ++ group_reads sb i rs /\
      length gs = (length acc + todo)%nat
  end.
Proof.
  induction todo as [|todo IH]; intros i d t acc.
  - simpl. exists []. simpl. rewrite app_nil_r.
    repeat split; first [lia | constructor].
  - cbn [read_groups].
    destruct (storage_read d (group_offset sb i) sizeof_LinnGroup) as [d' [e bytes]].
    destruct (e <=? 0) eqn:He.
    + exists [], e. simpl. rewrite Z.add_0_r.
      repeat split; first [lia | constructor].
    + specialize (IH (i + 1) d' (t ++ [EvRead (group_offset sb i) sizeof_LinnGroup e])
                     (acc ++ [as_LinnGroup bytes])).
      destruct (read_groups sb todo (i + 1) d'
                  (t ++ [EvRead (group_offset sb i) sizeof_LinnGroup e])
                  (acc ++ [as_LinnGroup bytes])) as [t' | [[d2 t'] gs]].
      * destruct IH as (rs & res & Hlen & Hpos & Hres & ->).
        exists (e :: rs), res. repeat split; [simpl; lia | | exact Hres |].
        { constructor; [lia | exact Hpos]. }
        cbn [group_reads length]. rewrite <- app_assoc.
        replace (i + Z.of_nat (S (length rs))) with (i + 1 + Z.of_nat (length rs)) by lia.
        reflexivity.
      * destruct IH as (rs & Hlen & Hpos & -> & Hgs).
        exists (e :: rs). simpl. repeat split; [lia | | |].
        { constructor; [lia | exact Hpos]. }
        { now rewrite <- app_assoc. }
        rewrite Hgs, length_app. simpl. lia.
Qed.

(** A superblock that cannot be read, or is read with a wrong magic,
    ends the mount at once: the constructor exits after this one read,
    with no group descriptor and no inode read. *)
Theorem ctor_rejects_superblock (d d1 : Storage) (e : Z) (bytes : list Byte.byte) :
  storage_read d LINN_SUPER_OFFSET sizeof_LinnSuperBlock = (d1, (e, bytes)) ->
  e <= 0 \/
  magic0 (as_LinnSuperBlock bytes) <> LINN_SUPER_MAGIC0 \/
  magic1 (as_LinnSuperBlock bytes) <> LINN_SUPER_MAGIC1 ->
  LinnFileSystem_ctor d = Exited [EvRead LINN_SUPER_OFFSET sizeof_LinnSuperBlock e].
Proof.
  intros Hread Hbad. unfold LinnFileSystem_ctor. rewrite Hread.
  destruct (e <=? 0) eqn:He; [reflexivity|].
  destruct Hbad as [Hle | [Hm | Hm]]; [lia | |]; apply Z.eqb_neq in Hm; rewrite Hm;
    [reflexivity | now rewrite orb_true_r].
Qed.

(** Why the constructor exits: for the superblock, as above; or, with
    the superblock read and its magic right, for the first group
    descriptor whose read reported nothing or failed, after the reads of
    those before it.  It never exits for the root inode. *)
Theorem ctor_exit_reasons (d : Storage) (t : list event) :
  LinnFileSystem_ctor d = Exited t ->
  exists d1 e bytes,
    storage_read d LINN_SUPER_OFFSET sizeof_LinnSuperBlock = (d1, (e, bytes)) /\
    let sb := as_LinnSuperBlock bytes in
    count_events is_new t = 0%nat /\
    (((e <= 0 \/ magic0 sb <> LINN_SUPER_MAGIC0 \/ magic1 sb <> LINN_SUPER_MAGIC1) /\
      t = [EvRead LINN_SUPER_OFFSET sizeof_LinnSuperBlock e]) \/
     (0 < e /\ magic0 sb = LINN_SUPER_MAGIC0 /\ magic1 sb = LINN_SUPER_MAGIC1 /\
      exists rs res,
        (length rs < Z.to_nat (LINN_GROUP_COUNT sb))%nat /\
        Forall (fun r => 0 < r) rs /\ res <= 0 /\
        t = EvRead LINN_SUPER_OFFSET sizeof_LinnSuperBlock e ::
            group_reads sb 0 rs ++
            [EvRead (group_offset sb (Z.of_nat (length rs))) sizeof_LinnGroup res])).
Proof.
  unfold LinnFileSystem_ctor.
  destruct (storage_read d LINN_SUPER_OFFSET sizeof_LinnSuperBlock) as [d1 [e bytes]].
  intros Hrun. exists d1, e, bytes. split; [reflexivity|]. cbv zeta.
  destruct (e <=? 0) eqn:He.
  { injection Hrun as <-. split; [reflexivity|]. left. split; [left; lia | reflexivity]. }
  destruct (magic0 (as_LinnSuperBlock bytes) =? LINN_SUPER_MAGIC0) eqn:Hm0; simpl in Hrun.
  2: { injection Hrun as <-. split; [reflexivity|]. left.
       split; [right; left; now apply Z.eqb_neq | reflexivity]. }
  destruct (magic1 (as_LinnSuperBlock bytes) =? LINN_SUPER_MAGIC1) eqn:Hm1; simpl in Hrun.
  2: { injection Hrun as <-. split; [reflexivity|]. left.
       split; [right; right; now apply Z.eqb_neq | reflexivity]. }
  pose proof (read_groups_run (as_LinnSuperBlock bytes)
                (Z.to_nat (LINN_GROUP_COUNT (as_LinnSuperBlock bytes))) 0 d1
                [EvRead LINN_SUPER_OFFSET sizeof_LinnSuperBlock e] []) as Hgroups.
  destruct (read_groups (as_LinnSuperBlock bytes)
              (Z.to_nat (LINN_GROUP_COUNT (as_LinnSuperBlock bytes))) 0 d1
              [EvRead LINN_SUPER_OFFSET sizeof_LinnSuperBlock e] [])
    as [t' | [[d2 t2] gs]].
  - injection Hrun as <-. destruct Hgroups as (rs & res & Hlen & Hpos & Hres & ->).
    split.
    { simpl. rewrite count_events_app. simpl.
      clear. generalize 0 as i. induction rs as [|r rs IH]; intros i; simpl; auto. }
    right. apply Z.eqb_eq in Hm0, Hm1. split; [lia|]. split; [exact Hm0|].
    split; [exact Hm1|]. exists rs, res. repeat split; auto.
  - match type of Hrun with
    | context [getInode ?n ?st] => destruct (getInode n st) as [[[p|] s1]|]
    end; discriminate.
Qed.

Lemma ctor_mounted_run (d : Storage) (fs : LinnFileSystem) :
  LinnFileSystem_ctor d = Mounted fs ->
  exists e rs evs rootInode,
    magic0 (super fs) = LINN_SUPER_MAGIC0 /\
    magic1 (super fs) = LINN_SUPER_MAGIC1 /\
    length (groups fs) = Z.to_nat (LINN_GROUP_COUNT (super fs)) /\
    length rs = Z.to_nat (LINN_GROUP_COUNT (super fs)) /\
    Forall (fun r => 0 < r) rs /\ 0 < e /\
    trace fs =
      EvRead LINN_SUPER_OFFSET sizeof_LinnSuperBlock e ::
      group_reads (super fs) 0 rs ++ evs ++ [EvNew KFile; EvNew KFileCache] /\
    (length (reads evs) <= 1)%nat /\
    inodes fs = {[ LINN_INODE_ROOT := rootInode ]} /\
    addr rootInode = 0%nat /\ nobj fs = 1%nat /\
    LINN_INODE_ROOT < inodesCount (super fs) /\
    root fs = 0%nat /\
    fcache fs = [ {| file := LinnDirectory rootInode; entries := ∅ |} ].
Proof.
  unfold LinnFileSystem_ctor.
  destruct (storage_read d LINN_SUPER_OFFSET sizeof_LinnSuperBlock) as [d1 [e bytes]].
  destruct (e <=? 0) eqn:He; [discriminate|].
  destruct (magic0 (as_LinnSuperBlock bytes) =? LINN_SUPER_MAGIC0) eqn:Hm0;
    [|discriminate].
  destruct (magic1 (as_LinnSuperBlock bytes) =? LINN_SUPER_MAGIC1) eqn:Hm1;
    [|discriminate].
  simpl.
  pose proof (read_groups_run (as_LinnSuperBlock bytes)
                (Z.to_nat (LINN_GROUP_COUNT (as_LinnSuperBlock bytes))) 0 d1
                [EvRead LINN_SUPER_OFFSET sizeof_LinnSuperBlock e] []) as Hgroups.
  destruct (read_groups (as_LinnSuperBlock bytes)
              (Z.to_nat (LINN_GROUP_COUNT (as_LinnSuperBlock bytes))) 0 d1
              [EvRead LINN_SUPER_OFFSET sizeof_LinnSuperBlock e] [])
    as [t' | [[d2 t2] gs]]; [discriminate|].
  destruct Hgroups as (rs & Hlen & Hpos & -> & Hgs).
  match goal with
  | |- context [getInode ?n ?st] =>
      destruct (getInode n st) as [[[p|] s1]|] eqn:Hinode; try discriminate
  end.
  intros [= <-].
  apply getInode_effect in Hinode
    as (Hsb & Hg & Hroot & _ & (evs & Ht & Hreads & _) & Hcache).
  simpl in *.
  destruct Hcache as [(_ & _ & [Hr | [Hr _]]) | (q & [= <-] & _ & Hvalid & Haddr & Hn & Hi)];
    [discriminate | rewrite lookup_empty in Hr; discriminate |].
  apply Z.eqb_eq in Hm0, Hm1.
  exists e, rs, evs, p. rewrite Hsb, Hg. simpl.
  repeat split; auto; try lia.
  rewrite Ht. simpl. now rewrite <- !app_assoc.
Qed.

(** What a mount leaves: the superblock as read, with the right magic;
    as many group descriptors as [LINN_GROUP_COUNT] says, each read on
    its own at [groupsTable * blockSize + sizeof(LinnGroup) * i]; after
    them at most one read, for the root inode; the root inode cached
    under [LINN_INODE_ROOT], alone, as the first object; and one
    [FileCache], the root, wrapping it as a directory, with no
    children. *)
Theorem ctor_mounted_state (d : Storage) (fs : LinnFileSystem) :
  LinnFileSystem_ctor d = Mounted fs ->
  exists e rs evs rootInode,
    magic0 (super fs) = LINN_SUPER_MAGIC0 /\
    magic1 (super fs) = LINN_SUPER_MAGIC1 /\
    length (groups fs) = Z.to_nat (LINN_GROUP_COUNT (super fs)) /\
    length rs = Z.to_nat (LINN_GROUP_COUNT (super fs)) /\
    Forall (fun r => 0 < r) rs /\ 0 < e /\
    trace fs =
      EvRead LINN_SUPER_OFFSET sizeof_LinnSuperBlock e ::
      group_reads (super fs) 0 rs ++ evs ++ [EvNew KFile; EvNew KFileCache] /\
    (length (reads evs) <= 1)%nat /\
    inodes fs = {[ LINN_INODE_ROOT := rootInode ]} /\
    addr rootInode = 0%nat /\ nobj fs = 1%nat /\
    LINN_INODE_ROOT < inodesCount (super fs) /\
    root fs = 0%nat /\
    fcache fs = [ {| file := LinnDirectory rootInode; entries := ∅ |} ].
Proof. apply ctor_mounted_run. Qed.

(** After a mount that found the root inode, every state the file
    system gets into is well formed: the file cache is a tree whose
    links lead to nodes, regular files have no children in it, every
    node but the root has the class its inode asks for, and the inode
    cache is in order.  The constructor does not look at what
    [getInode] returned for the root: a mount that did not find the
    root inode builds the root all the same, around [ZERO], and is not
    among the states here. *)
Theorem mount_with_root_stays_well_formed
    (d : Storage) (fs s' : LinnFileSystem) (qs : list request) :
  LinnFileSystem_ctor d = Mounted fs ->
  serve_all qs fs = Some (tt, s') ->
  tree_closed (root s') (fcache s') /\
  tree_shaped (root s') (fcache s') /\
  files_are_leaves (fcache s') /\
  inodes_ok s' /\
  wrappers_match s'.
Proof.
  intros Hmount Hrun.
  apply ctor_mounted_run in Hmount
    as (e & rs & evs & p & _ & _ & _ & _ & _ & _ & _ & _ & Hi & Haddr & Hn & Hvalid & Hr & Hfc).
  assert (Hnone : forall c name, child_of (fcache fs) c name = None).
  { intros c name. unfold child_of. rewrite Hfc.
    destruct c as [|c]; simpl; [apply lookup_empty | reflexivity]. }
  assert (Hclosed : tree_closed (root fs) (fcache fs)).
  { split; [rewrite Hr, Hfc; simpl; lia|]. intros c name child. now rewrite Hnone. }
  assert (Hshaped : tree_shaped (root fs) (fcache fs)).
  { split; [intros c name; now rewrite Hnone|].
    intros c1 n1 c2 n2 child. now rewrite Hnone. }
  destruct (serve_all_tree _ _ _ Hclosed Hshaped Hrun) as [Hc' Hs'].
  split; [exact Hc'|]. split; [exact Hs'|]. split; [|split].
  - apply serve_all_leaves with qs fs; [exact Hrun|].
    rewrite Hfc. now apply files_are_leaves_root.
  - apply serve_all_inodes_ok with qs fs; [|exact Hrun].
    unfold inodes_ok. rewrite Hi, Hn. repeat split.
    + intros n q Hq. apply lookup_singleton_Some in Hq as [<- _]. exact Hvalid.
    + intros n q Hq. apply lookup_singleton_Some in Hq as [_ <-]. lia.
    + intros n1 n2 q1 q2 H1 H2 _.
      apply lookup_singleton_Some in H1 as [<- _].
      now apply lookup_singleton_Some in H2 as [<- _].
  - apply serve_all_wrappers with qs fs; [|exact Hrun].
    intros c node Hnode Hc. rewrite Hfc in Hnode. rewrite Hr in Hc.
    apply list_lookup_singleton_Some in Hnode as [-> _]. congruence.
Qed.

End MoreMount.

(** ** On the small volume *)

#[local] Existing Instance Demo.env.

(** Settles a closed statement by evaluation. *)
Ltac evaluate :=
  vm_compute; repeat split; try reflexivity; try discriminate.

(** C1.  The walk of [getOffset] on a double indirect block.  Logical
    block 8 is the first block of the double indirect range, for the
    code and for the specification alike; its digits in base 4, counted
    from the start of that range, are 0 and 0.  The code reads slot
    [16 / 5 = 3] of the double indirect block, a quotient and not a
    digit, goes on to block 7 instead of block 4, and returns the
    offset of block 70 where block 40 holds the data. *)
Example getOffset_double_indirect_slot_is_quotient :
  exists r s',
    getOffset Demo.inode 8 Demo.fs = Some (r, s') /\
    getOffset_depth Demo.sb 8 = 2%nat /\
    Spec.depth (LINN_SUPER_NUM_PTRS Demo.sb) (8 - LINN_INODE_DIR_BLOCKS) = 2%nat /\
    Spec.slots_followed (LINN_SUPER_NUM_PTRS Demo.sb) 2 (8 - LINN_INODE_DIR_BLOCKS) = [0; 0] /\
    slots (trace s') = [3; 0; 0] /\
    reads (trace s') = [EvRead (3 * 32) 32 32; EvRead (7 * 32) 32 32] /\
    r = 70 * 32.
Proof.
  eexists _, _. split; [vm_compute; reflexivity|]. evaluate.
Qed.

(** Two logical blocks of one file, 12 and 16, at one storage offset. *)
Example getOffset_not_injective :
  exists r s1 s2,
    getOffset Demo.inode 12 Demo.fs = Some (r, s1) /\
    getOffset Demo.inode 16 Demo.fs = Some (r, s2).
Proof.
  eexists _, _, _. split; vm_compute; reflexivity.
Qed.

(** C2, as the claim has it, fails: with four pointers per block and
    four direct pointers, block 20 is sixteen past the direct pointers,
    within the sixteen indices that follow the first four, and the code
    gives it depth 3. *)
Lemma getOffset_depth_not_cumulative :
  ~ (forall blk : Z,
       let n := LINN_SUPER_NUM_PTRS Demo.sb in
       let k := blk - LINN_INODE_DIR_BLOCKS in
       n <= k < n + n * n -> getOffset_depth Demo.sb blk = 2%nat).
Proof.
  intros Hclaim. specialize (Hclaim 20). cbv zeta in Hclaim.
  assert (Hdepth : getOffset_depth Demo.sb 20 = 3%nat) by reflexivity.
  rewrite Hdepth in Hclaim. discriminate Hclaim. evaluate.
Qed.

Lemma getOffset_depth_ranges_witness : getOffset_depth Demo.sb 20 = 3%nat.
Proof.
  destruct (getOffset_depth_ranges Demo.sb 20) as (_ & _ & Hthree & _);
    [evaluate | evaluate |].
  apply Hthree; evaluate.
Defined.

(** C3, as the claim has it, fails: block 20 is one of the sixteen
    indices that follow the first four past the direct pointers, the
    double indirect range, and the code reads three blocks for it, none
    of the reads failing. *)
Lemma getOffset_double_indirect_range_three_reads :
  ~ (forall blk : Z,
       let n := LINN_SUPER_NUM_PTRS Demo.sb in
       let k := blk - LINN_INODE_DIR_BLOCKS in
       n <= k < n + n * n ->
       forall (r : Z) (s' : LinnFileSystem),
         getOffset Demo.inode blk Demo.fs = Some (r, s') ->
         existsb is_failed_read (trace s') = false ->
         length (reads (trace s')) = 2%nat).
Proof.
  intros Hclaim. specialize (Hclaim 20). cbv zeta in Hclaim.
  assert (Hrun : exists r s',
            getOffset Demo.inode 20 Demo.fs = Some (r, s') /\
            existsb is_failed_read (trace s') = false /\
            length (reads (trace s')) = 3%nat).
  { eexists _, _. split; [vm_compute; reflexivity|]. evaluate. }
  destruct Hrun as (r & s' & Hrun & Hok & Hthree).
  specialize (Hclaim ltac:(evaluate) r s' Hrun Hok).
  rewrite Hthree in Hclaim. discriminate Hclaim.
Qed.

Lemma getOffset_read_count_witness :
  exists r s' evs,
    getOffset Demo.inode 8 Demo.fs = Some (r, s') /\
    trace s' = trace Demo.fs ++ evs /\
    length (reads evs) = 2%nat.
Proof.
  destruct (getOffset_read_count Demo.inode 8 Demo.fs)
    as (r & s' & evs & Hrun & Htrace & _ & _ & Htwo & _);
    [evaluate | evaluate | evaluate |].
  exists r, s', evs. split; [exact Hrun|]. split; [exact Htrace|].
  apply Htwo; [evaluate|].
  vm_compute in Hrun. injection Hrun as _ <-.
  simpl in Htrace. subst evs. reflexivity.
Defined.

Lemma getOffset_stops_at_failed_read_witness :
  exists r s',
    getOffset Demo.torn_inode 5 Demo.fs = Some (r, s') /\
    In (EvRead (99 * 32) 32 (-1)) (trace s') /\
    r = 0.
Proof.
  destruct (getOffset_stops_at_failed_read Demo.torn_inode 5 Demo.fs)
    as (r & s' & evs & Hrun & Htrace & Hstop);
    [evaluate | evaluate | evaluate |].
  exists r, s'. split; [exact Hrun|].
  assert (Hin : In (EvRead (99 * 32) 32 (-1)) evs).
  { vm_compute in Hrun. injection Hrun as _ <-.
    simpl in Htrace. subst evs. right. left. reflexivity. }
  split.
  - rewrite Htrace. apply in_or_app. now right.
  - apply (Hstop (99 * 32) 32 (-1) Hin). reflexivity.
Defined.

Lemma getInode_miss_reads_unscaled_offset_witness :
  exists r s' evs res,
    getInode 2 Demo.fs = Some (r, s') /\
    trace s' = trace Demo.fs ++ evs /\
    reads evs = [EvRead (1 * 32 + 2) 64 res].
Proof.
  destruct (getInode_miss_reads_unscaled_offset Demo.fs 2 {| inodeTable := 1 |})
    as (r & s' & evs & offset & res & Hrun & Htrace & Hreads & Hoffset & _);
    [evaluate | evaluate | evaluate | evaluate |].
  exists r, s', evs, res. split; [exact Hrun|]. split; [exact Htrace|].
  rewrite Hreads, Hoffset. reflexivity.
Defined.

(** The three ways [getInode] returns [ZERO]: a number past the inode
    count, a group outside the table, a failed read. *)
Example getInode_three_failures :
  getInode 100 Demo.fs = Some (None, Demo.fs) /\
  getInode 0 Demo.fs = Some (None, Demo.fs) /\
  exists s',
    getInode 2 Demo.torn_fs = Some (None, s') /\
    trace s' = [EvNew KInode; EvRead (99 * 32 + 2) 64 (-1)] /\
    inodes s' = inodes Demo.torn_fs.
Proof.
  split; [reflexivity|]. split; [reflexivity|].
  eexists. split; [vm_compute; reflexivity|]. split; reflexivity.
Qed.

Lemma getInode_twice_same_object_witness :
  exists p,
    getInode 2 (Demo.after (getInode 2) Demo.fs)
    = Some (Some p, Demo.after (getInode 2) Demo.fs).
Proof.
  eexists. apply (getInode_twice_same_object Demo.fs).
  vm_compute. reflexivity.
Defined.

Lemma getInode_zero_relies_on_group_lookup_witness :
  getInode 0 Demo.fs = Some (None, Demo.fs).
Proof.
  destruct (getInode_zero_relies_on_group_lookup Demo.fs) as (_ & _ & _ & Hout & _);
    [evaluate | evaluate | evaluate |].
  apply Hout. evaluate.
Defined.

(** C6, as the claim has it, fails for the inode cache: the entry
    [dev] names inode 4, which is neither a directory nor a regular
    file; [lookupFile] reads the inode, returns [ZERO] and leaves the
    inode in the cache. *)
Lemma failed_lookupFile_grows_inode_cache :
  ~ (forall (path : list string) (s' : LinnFileSystem),
       lookupFile path Demo.fs = Some (None, s') -> inodes s' = inodes Demo.fs).
Proof.
  intros Hclaim.
  specialize (Hclaim ["dev"]%string (Demo.after (lookupFile ["dev"]%string) Demo.fs)
                ltac:(vm_compute; reflexivity)).
  apply (f_equal (fun m => m !! 4)) in Hclaim.
  vm_compute in Hclaim. discriminate Hclaim.
Qed.

Lemma failed_calls_and_the_caches_witness :
  inodes (Demo.after (getInode 100) Demo.fs) = inodes Demo.fs /\
  exists pre name post c s1,
    ["bin"; "dev"; "null"]%string = pre ++ name :: post /\
    lookupFile pre Demo.fs = Some (Some c, s1) /\
    fcache (Demo.after (lookupFile ["bin"; "dev"; "null"]%string) Demo.fs) = fcache s1 /\
    child_of (fcache s1) c name = None.
Proof.
  destruct (failed_calls_and_the_caches (H := Demo.env)) as [Hinode Hlookup].
  split.
  - apply (Hinode Demo.fs _ 100). vm_compute. reflexivity.
  - destruct (Hlookup Demo.fs
                (Demo.after (lookupFile ["bin"; "dev"; "null"]%string) Demo.fs)
                ["bin"; "dev"; "null"]%string)
      as (pre & name & post & c & s1 & Hsplit & Hpre & Hfc & Hfree & _);
      [vm_compute; reflexivity|].
    exists pre, name, post, c, s1. rewrite <- Hfc. auto.
Defined.

(** C7.  [lookupFile] twice for the path [bin/init].  The first call
    asks the root for [bin] and the directory [bin] for [init], and
    returns the node it made for [init], node 2.  That node is a child
    of the root: [insertFileCache] was given the name [init] and not the
    node of [bin], which has no child afterwards.  The second call
    finds [bin] under the root, does not find [init] under [bin], asks
    the directory again, builds a second [File] and a second
    [FileCache] around the inode, and returns that one, node 3. *)
Example lookupFile_below_root_not_memoized :
  exists s1 s2,
    lookupFile ["bin"; "init"]%string Demo.fs = Some (Some 2%nat, s1) /\
    lookupFile ["bin"; "init"]%string s1 = Some (Some 3%nat, s2) /\
    child_of (fcache s1) (root s1) "bin" = Some 1%nat /\
    child_of (fcache s1) 1 "init" = None /\
    child_of (fcache s1) (root s1) "init" = Some 2%nat /\
    trace s2 = trace s1 ++ [EvGetEntry 1 "init"; EvNew KFile; EvNew KFileCache] /\
    length (fcache s2) = S (length (fcache s1)).
Proof.
  eexists _, _. split; [vm_compute; reflexivity|].
  split; [vm_compute; reflexivity|]. evaluate.
Qed.

Lemma lookupFile_through_non_directory_witness :
  lookupFile ["init"; "x"; "y"]%string Demo.fs
  = Some (None, Demo.after (lookupFile ["init"]%string) Demo.fs).
Proof.
  eapply (lookupFile_through_non_directory Demo.fs _ ["init"]%string ["y"]%string "x" 1).
  - apply files_are_leaves_root. reflexivity.
  - vm_compute. reflexivity.
  - vm_compute. reflexivity.
  - vm_compute. discriminate.
Defined.

(** *** More on the small volume *)

Lemma getOffset_changes_device_and_trace_only_witness :
  inodes (Demo.after (getOffset Demo.inode 8) Demo.fs) = inodes Demo.fs /\
  fcache (Demo.after (getOffset Demo.inode 8) Demo.fs) = fcache Demo.fs /\
  nobj (Demo.after (getOffset Demo.inode 8) Demo.fs) = nobj Demo.fs.
Proof.
  destruct (getOffset_changes_device_and_trace_only Demo.inode 8 Demo.fs
              (Demo.after (getOffset Demo.inode 8) Demo.fs) (70 * 32))
    as (_ & _ & Hi & _ & Hfc & Hn & _); [vm_compute; reflexivity|].
  auto.
Defined.

Lemma getOffset_trace_shape_witness :
  exists r s' res mid,
    getOffset Demo.inode 8 Demo.fs = Some (r, s') /\
    trace s' = trace Demo.fs ++
      EvNew KBlock :: EvRead (3 * 32) 32 res :: mid ++ [EvDelete KBlock].
Proof.
  destruct (getOffset_trace_shape Demo.inode 8 Demo.fs)
    as (r & s' & res & mid & Hrun & Htrace & _); [evaluate | evaluate | evaluate |].
  exists r, s', res, mid. split; [exact Hrun | exact Htrace].
Defined.

Lemma getOffset_block_aligned_witness : (32 | 70 * 32).
Proof.
  apply (getOffset_block_aligned Demo.inode 8 Demo.fs
           (Demo.after (getOffset Demo.inode 8) Demo.fs) (70 * 32)).
  - exists (2 ^ 59). reflexivity.
  - exists (2 ^ 59). reflexivity.
  - vm_compute. reflexivity.
Defined.

Lemma getOffset_remain_power_witness : getOffset_remain Demo.sb 3 = 4 ^ 4.
Proof.
  rewrite (getOffset_remain_power Demo.sb 3); [reflexivity | evaluate | lia].
Defined.

Lemma getOffset_single_indirect_witness :
  exists s', getOffset Demo.inode 5 Demo.fs = Some (21 * 32, s').
Proof.
  destruct (getOffset_single_indirect Demo.inode 5 Demo.fs tt 32
              (firstn 32 (skipn 64 Demo.image)))
    as (s' & evs & Hrun & _); [evaluate | evaluate | evaluate | reflexivity | evaluate |].
  exists s'. exact Hrun.
Defined.

Lemma getOffset_first_single_indirect_past_block_witness :
  exists r s' evs,
    getOffset Demo.inode 4 Demo.fs = Some (r, s') /\
    trace s' = trace Demo.fs ++ evs /\
    slots evs = [4; 0] /\
    r = 20 * 32.
Proof.
  destruct (getOffset_first_single_indirect_past_block Demo.inode Demo.fs tt 32
              (firstn 32 (skipn 64 Demo.image)))
    as (r & s' & evs & Hrun & Htrace & Hslots & _ & Hr);
    [evaluate | evaluate | evaluate | reflexivity | reflexivity | evaluate |].
  exists r, s', evs. split; [exact Hrun|]. split; [exact Htrace|].
  split; [exact Hslots | exact Hr].
Defined.

Lemma getInode_load_witness :
  exists s' inode,
    getInode 2 Demo.fs = Some (Some inode, s') /\
    addr inode = 1%nat /\ inodes s' = <[2 := inode]> (inodes Demo.fs).
Proof.
  destruct (getInode_load Demo.fs 2 {| inodeTable := 1 |} tt 64
              (firstn 64 (skipn 34 Demo.image)))
    as (s' & evs & Hrun & _ & _ & Hi & _);
    [evaluate | reflexivity | evaluate | reflexivity | reflexivity |].
  eexists s', _. split; [exact Hrun|]. split; [reflexivity | exact Hi].
Defined.

Lemma getGroupByInode_bounds_witness :
  (exists group, getGroupByInode 3 Demo.fs = Some (Some group, Demo.fs)) /\
  getGroupByInode 9 Demo.fs = Some (None, Demo.fs).
Proof.
  split.
  - destruct (getGroupByInode_bounds Demo.fs 3) as [Hin _]; [evaluate | evaluate |].
    destruct Hin as (group & Hrun & _); [evaluate|]. now exists group.
  - destruct (getGroupByInode_bounds Demo.fs 9) as [_ Hout]; [evaluate | evaluate |].
    apply Hout. evaluate.
Defined.

Lemma inode_offsets_in_group_witness :
  inode_offset Demo.sb {| inodeTable := 1 |} 2 <> inode_offset Demo.sb {| inodeTable := 1 |} 3.
Proof.
  apply (inode_offsets_in_group Demo.sb {| inodeTable := 1 |} 2 3); evaluate.
Defined.

Lemma requests_never_forget_witness :
  let s := Demo.after (lookupFile ["bin"; "init"]%string) Demo.fs in
  let later := [ReqLookup ["bin"; "init"]%string; ReqInode 4; ReqOffset Demo.inode 8] in
  let s' := Demo.after (serve_all later) s in
  (exists p, inodes s !! 3 = Some p /\ inodes s' !! 3 = Some p) /\
  (exists node node',
     fcache s !! 2%nat = Some node /\ fcache s' !! 2%nat = Some node' /\
     file node' = file node).
Proof.
  intros s later s'.
  destruct (requests_never_forget later s s')
    as (_ & _ & _ & Hinodes & Hnodes & _); [vm_compute; reflexivity|].
  split.
  - assert (Hp : exists p, inodes s !! 3 = Some p) by (vm_compute; eexists; reflexivity).
    destruct Hp as [p Hp]. exists p. split; [exact Hp | now apply Hinodes].
  - assert (Hnode : exists node, fcache s !! 2%nat = Some node)
      by (vm_compute; eexists; reflexivity).
    destruct Hnode as [node Hnode]. destruct (Hnodes _ _ Hnode) as (node' & Hnode' & Hfile).
    now exists node, node'.
Defined.

Lemma getInode_stable_across_requests_witness :
  let later := [ReqLookup ["bin"; "dev"]%string; ReqInode 3; ReqOffset Demo.inode 8] in
  let s2 := Demo.after (serve_all later) (Demo.after (getInode 2) Demo.fs) in
  exists p, getInode 2 s2 = Some (Some p, s2).
Proof.
  intros later s2. eexists.
  apply (getInode_stable_across_requests Demo.fs (Demo.after (getInode 2) Demo.fs) s2 2 _ later);
    vm_compute; reflexivity.
Defined.

Lemma requests_keep_inodes_ok_witness :
  let later := [ReqLookup ["bin"; "dev"]%string; ReqInode 3; ReqOffset Demo.inode 8] in
  inodes_ok (Demo.after (serve_all later) Demo.fs).
Proof.
  intros later.
  apply (requests_keep_inodes_ok later Demo.fs).
  - apply one_inode_ok with 1 Demo.root_inode; [reflexivity | reflexivity | simpl; lia].
  - vm_compute. reflexivity.
Defined.


Lemma lookupFile_returns_in_closed_tree_witness :
  exists r s', lookupFile ["bin"; "lost"; "found"]%string Demo.fs = Some (r, s').
Proof.
  destruct (lookupFile_returns_in_closed_tree Demo.fs ["bin"; "lost"; "found"]%string)
    as (r & s' & Hrun & _).
  - apply root_alone_tree. reflexivity.
  - evaluate.
  - now exists r, s'.
Defined.

Lemma requests_keep_wrappers_witness :
  let later := [ReqLookup ["bin"; "init"]%string; ReqInode 3; ReqOffset Demo.inode 8] in
  wrappers_match (Demo.after (serve_all later) Demo.fs).
Proof.
  intros later.
  apply (requests_keep_wrappers later Demo.fs).
  - now apply root_alone_wrappers with {| file := LinnDirectory Demo.root_inode; entries := ∅ |}.
  - vm_compute. reflexivity.
Defined.

Lemma lookupFile_cost_witness :
  exists evs,
    trace (Demo.after (lookupFile ["bin"; "init"]%string) Demo.fs) = trace Demo.fs ++ evs /\
    (count_events is_getEntry evs <= 2)%nat /\
    (length (reads evs) <= count_events is_getEntry evs)%nat.
Proof.
  destruct (lookupFile_cost Demo.fs (Demo.after (lookupFile ["bin"; "init"]%string) Demo.fs)
              ["bin"; "init"]%string (Some 2%nat))
    as (evs & Ht & Hg & Hr & _); [vm_compute; reflexivity|].
  exists evs. split; [exact Ht|]. split; [exact Hg | exact Hr].
Defined.

(** *** On the volume with a superblock *)

Lemma ctor_rejects_superblock_witness :
  @LinnFileSystem_ctor Disk.env Disk.menv Disk.foreign_image = Exited [EvRead 0 72 72].
Proof.
  apply (ctor_rejects_superblock (H := Disk.env) (H0 := Disk.menv)
           Disk.foreign_image Disk.foreign_image 72 Disk.foreign_image).
  - vm_compute. reflexivity.
  - right. right. vm_compute. discriminate.
Defined.

Lemma ctor_exit_reasons_witness :
  count_events is_new [EvRead 0 72 72; EvRead 128 8 (-1)] = 0%nat.
Proof.
  destruct (ctor_exit_reasons (H := Disk.env) (H0 := Disk.menv) Disk.torn_image
              [EvRead 0 72 72; EvRead 128 8 (-1)])
    as (d1 & e & bytes & _ & Hnew & _); [vm_compute; reflexivity|].
  exact Hnew.
Defined.

Lemma ctor_mounted_state_witness :
  length (groups Disk.fs) = 2%nat /\ root Disk.fs = 0%nat /\ nobj Disk.fs = 1%nat.
Proof.
  destruct (ctor_mounted_state (H := Disk.env) (H0 := Disk.menv) Disk.image Disk.fs)
    as (e & rs & evs & p & _ & _ & Hgroups & _ & _ & _ & _ & _ & _ & _ & Hn & _ & Hr & _);
    [vm_compute; reflexivity|].
  split; [rewrite Hgroups; reflexivity|]. split; [exact Hr | exact Hn].
Defined.

Lemma mount_with_root_stays_well_formed_witness :
  let later := [ReqLookup ["bin"; "init"]%string; ReqInode 3; ReqLookup ["init"; "x"]%string] in
  let s' := Disk.after (serve_all later) Disk.fs in
  tree_closed (root s') (fcache s') /\
  tree_shaped (root s') (fcache s') /\
  files_are_leaves (fcache s') /\
  inodes_ok s' /\
  wrappers_match s'.
Proof.
  intros later s'.
  apply (mount_with_root_stays_well_formed (H := Disk.env) (H0 := Disk.menv)
           Disk.image Disk.fs s' later); vm_compute; reflexivity.
Defined.
